(** * core-js-101, [src/06-objects-tasks.js]: objects tasks

    A shallow embedding of the four exported definitions of the module
    ([Rectangle], [getJSON], [fromJSON] and [cssSelectorBuilder]) together
    with the two classes behind the selector builder ([CSSPath] and
    [CSSCombinedPath]), followed by the properties proved about them.

    Conventions of the embedding:
    - a JavaScript number is an IEEE 754 binary64 value ([float]);
    - a JavaScript string is a [string];
    - the object literal [this.css] of a [CSSPath] is a finite map from
      property names to strings; reading a missing property is [None]
      (JavaScript's [undefined]);
    - a method that mutates [this] and may [throw] is a function from the
      state of [this] to the new state and a completion; a method that
      ends with [return this] completes with [tt], the object it returns
      being that new state;
    - [JSON.stringify], [JSON.parse] and what else [getJSON] and [fromJSON]
      take from the host are a parameter; [Object.create] and
      [Object.assign] follow ECMAScript on ordinary objects. *)

From Stdlib Require Import ZArith PrimFloat Sorted Ascii String.
From stdpp Require Import gmap strings pretty list fin_maps.

Local Open Scope string_scope.

(** ** Completions and methods *)

(** [new Error(message)]. *)
Record Error : Type := mkError { message : string }.

(** The outcome of evaluating a call: a value, or a thrown error. *)
Inductive completion (A : Type) : Type :=
| Normal (a : A)
| Throw (e : Error).
Arguments Normal {A} a.
Arguments Throw {A} e.

Definition is_Normal {A} (c : completion A) : bool :=
  match c with Normal _ => true | Throw _ => false end.

(** A method of an object whose state has type [S]: it receives the state
    of [this] and gives back the state it leaves behind, also when it
    throws. *)
Definition method (S A : Type) : Type := S → S * completion A.

Definition method_ret {S A} (a : A) : method S A := λ this, (this, Normal a).

Definition method_bind {S A B} (m : method S A) (k : A → method S B)
  : method S B :=
  λ this,
    match m this with
    | (this', Normal a) => k a this'
    | (this', Throw e) => (this', Throw e)
    end.

Definition throw {S A} (e : Error) : method S A := λ this, (this, Throw e).

Declare Scope method_scope.
Delimit Scope method_scope with method.
Notation "x <- m ;; k" := (method_bind m (λ x, k))
  (at level 20, m at level 99, k at level 200, only parsing) : method_scope.
Notation "m ;; k" := (method_bind m (λ _, k))
  (at level 100, k at level 200, only parsing, right associativity)
  : method_scope.
Local Open Scope method_scope.

(** ** JavaScript primitives used by the module *)

(** Truthiness of a property read: [undefined] and the empty string are
    falsy, every other string is truthy. *)
Definition truthy (v : option string) : bool :=
  match v with
  | Some (String _ _) => true
  | Some EmptyString | None => false
  end.

(** String conversion of a property read, as [+=] and template literals
    perform it. *)
Definition toString (v : option string) : string :=
  match v with
  | Some s => s
  | None => "undefined"
  end.

(** [Array.prototype.indexOf]: the first index of [x], or [-1]. *)
Fixpoint indexOf (x : string) (l : list string) : Z :=
  match l with
  | [] => -1
  | y :: l' =>
    if String.eqb y x then 0
    else match indexOf x l' with
         | Z.neg _ => -1
         | i => i + 1
         end
  end%Z.

(** [Array.prototype.slice(start)]: a negative [start] counts from the
    end of the array. *)
Definition slice (start : Z) (l : list string) : list string :=
  if (start <? 0)%Z
  then drop (Z.to_nat (Z.max 0 (Z.of_nat (length l) + start))) l
  else drop (Z.to_nat start) l.

(** [Array.prototype.some]. *)
Definition some {A} (p : A → bool) (l : list A) : bool := existsb p l.

(** ** class CSSPath *)

Module CSSPath.

(** The state of an instance is its only field, [this.css]. *)
Abbreviation t := (gmap string string).

Definition constructor : t := ∅.

(** [this.css[f]] *)
Definition get (f : string) : method t (option string) :=
  λ this, (this, Normal (this !! f)).

(** [this.css[f] = v] *)
Definition set (f : string) (v : string) : method t unit :=
  λ this, (<[f := v]> this, Normal tt).

Definition duplicateError : Error :=
  mkError "Element, id and pseudo-element should not occur more then one time inside the selector".

Definition orderError : Error :=
  mkError "Selector parts should be arranged in the following order: element, id, class, attribute, pseudo-class, pseudo-element".

Definition order : list string :=
  ["element"; "id"; "class"; "attribute"; "pseudoClass"; "pseudoElement"].

Definition checkOrder (field : string) : method t unit :=
  λ this,
    let prev :=
      some (λ f, truthy (this !! f)) (slice (indexOf field order + 1) order) in
    if prev then throw orderError this else method_ret tt this.

Definition element (value : string) : method t unit :=
  cur <- get "element" ;;
  (if truthy cur then throw duplicateError else method_ret tt) ;;
  checkOrder "element" ;;
  set "element" value.

Definition id (value : string) : method t unit :=
  cur <- get "id" ;;
  (if truthy cur then throw duplicateError else method_ret tt) ;;
  checkOrder "id" ;;
  set "id" ("#" +:+ value).

Definition pseudoElement (value : string) : method t unit :=
  cur <- get "pseudoElement" ;;
  (if truthy cur then throw duplicateError else method_ret tt) ;;
  checkOrder "pseudoElement" ;;
  set "pseudoElement" ("::" +:+ value).

Definition class (value : string) : method t unit :=
  cur <- get "class" ;;
  (if negb (truthy cur) then set "class" "" else method_ret tt) ;;
  checkOrder "class" ;;
  cur <- get "class" ;;
  set "class" (toString cur +:+ "." +:+ value).

Definition attr (value : string) : method t unit :=
  cur <- get "attribute" ;;
  (if negb (truthy cur) then set "attribute" "" else method_ret tt) ;;
  checkOrder "attribute" ;;
  cur <- get "attribute" ;;
  set "attribute" (toString cur +:+ "[" +:+ value +:+ "]").

Definition pseudoClass (value : string) : method t unit :=
  cur <- get "pseudoClass" ;;
  (if negb (truthy cur) then set "pseudoClass" "" else method_ret tt) ;;
  checkOrder "pseudoClass" ;;
  cur <- get "pseudoClass" ;;
  set "pseudoClass" (toString cur +:+ ":" +:+ value).

(** One [if (this.css.f) result += this.css.f] of [stringify]. *)
Definition addPart (this : t) (f : string) (result : string) : string :=
  if truthy (this !! f) then result +:+ toString (this !! f) else result.

Definition stringify (this : t) : string :=
  let result := "" in
  let result := addPart this "element" result in
  let result := addPart this "id" result in
  let result := addPart this "class" result in
  let result := addPart this "attribute" result in
  let result := addPart this "pseudoClass" result in
  let result := addPart this "pseudoElement" result in
  result.

End CSSPath.

(** ** class CSSCombinedPath *)

(** A selector object is an instance of one of the two classes; calling
    [stringify] on it dispatches on the class. *)
Inductive selector : Type :=
| Path (css : CSSPath.t)
| CombinedPath (firstSelector : selector) (combinator : string)
               (secondSelector : selector).

Definition completion_bind {A B} (c : completion A) (k : A → completion B)
  : completion B :=
  match c with
  | Normal a => k a
  | Throw e => Throw e
  end.

Module CSSCombinedPath.

Definition constructor (firstSelector : selector) (combinator : string)
  (secondSelector : selector) : selector :=
  CombinedPath firstSelector combinator secondSelector.

(** The template literal evaluates [this.firstSelector.stringify()], then
    [this.secondSelector.stringify()]; an error thrown by either call
    would propagate. *)
Fixpoint stringify (this : selector) : completion string :=
  match this with
  | Path css => Normal (CSSPath.stringify css)
  | CombinedPath firstSelector combinator secondSelector =>
    completion_bind (stringify firstSelector) (λ first,
    completion_bind (stringify secondSelector) (λ second,
    Normal (first +:+ " " +:+ combinator +:+ " " +:+ second)))
  end.

End CSSCombinedPath.

(** ** const cssSelectorBuilder *)

Module cssSelectorBuilder.

Definition element (value : string) : CSSPath.t * completion unit :=
  CSSPath.element value CSSPath.constructor.

Definition id (value : string) : CSSPath.t * completion unit :=
  CSSPath.id value CSSPath.constructor.

Definition class (value : string) : CSSPath.t * completion unit :=
  CSSPath.class value CSSPath.constructor.

Definition attr (value : string) : CSSPath.t * completion unit :=
  CSSPath.attr value CSSPath.constructor.

Definition pseudoClass (value : string) : CSSPath.t * completion unit :=
  CSSPath.pseudoClass value CSSPath.constructor.

Definition pseudoElement (value : string) : CSSPath.t * completion unit :=
  CSSPath.pseudoElement value CSSPath.constructor.

Definition combine (selector1 : selector) (combinator : string)
  (selector2 : selector) : completion selector :=
  Normal (CSSCombinedPath.constructor selector1 combinator selector2).

End cssSelectorBuilder.

(** ** Sequences of calls on one CSSPath instance *)

(** One of the six mutating calls, with its argument. *)
Inductive call : Type :=
| call_element (value : string)
| call_id (value : string)
| call_class (value : string)
| call_attr (value : string)
| call_pseudoClass (value : string)
| call_pseudoElement (value : string).

Definition invoke (c : call) : method CSSPath.t unit :=
  match c with
  | call_element value => CSSPath.element value
  | call_id value => CSSPath.id value
  | call_class value => CSSPath.class value
  | call_attr value => CSSPath.attr value
  | call_pseudoClass value => CSSPath.pseudoClass value
  | call_pseudoElement value => CSSPath.pseudoElement value
  end.

(** The same calls made through the facade, on a fresh instance. *)
Definition facade (c : call) : CSSPath.t * completion unit :=
  match c with
  | call_element value => cssSelectorBuilder.element value
  | call_id value => cssSelectorBuilder.id value
  | call_class value => cssSelectorBuilder.class value
  | call_attr value => cssSelectorBuilder.attr value
  | call_pseudoClass value => cssSelectorBuilder.pseudoClass value
  | call_pseudoElement value => cssSelectorBuilder.pseudoElement value
  end.

(** The property of [this.css] a call writes. *)
Definition field (c : call) : string :=
  match c with
  | call_element _ => "element"
  | call_id _ => "id"
  | call_class _ => "class"
  | call_attr _ => "attribute"
  | call_pseudoClass _ => "pseudoClass"
  | call_pseudoElement _ => "pseudoElement"
  end.

(** The position of a call's category in the precedence order. *)
Definition rank (c : call) : nat :=
  match c with
  | call_element _ => 0
  | call_id _ => 1
  | call_class _ => 2
  | call_attr _ => 3
  | call_pseudoClass _ => 4
  | call_pseudoElement _ => 5
  end.

(** Element, id and pseudo-element are the categories guarded against a
    second occurrence. *)
Definition once (c : call) : bool :=
  match c with
  | call_element _ | call_id _ | call_pseudoElement _ => true
  | _ => false
  end.

(** The text a call contributes to the selector. *)
Definition fragment (c : call) : string :=
  match c with
  | call_element value => value
  | call_id value => "#" +:+ value
  | call_class value => "." +:+ value
  | call_attr value => "[" +:+ value +:+ "]"
  | call_pseudoClass value => ":" +:+ value
  | call_pseudoElement value => "::" +:+ value
  end.

(** A chained expression [o.c1(v1).c2(v2)...]: each call is made on the
    object the previous one returned, and the first [throw] ends the
    evaluation. *)
Fixpoint chain (calls : list call) : method CSSPath.t unit :=
  match calls with
  | [] => method_ret tt
  | c :: calls' => invoke c ;; chain calls'
  end.

(** [builder.c1(v1).c2(v2)...]: the chain starts at the facade. *)
Definition build (calls : list call) : CSSPath.t * completion unit :=
  match calls with
  | [] => (CSSPath.constructor, Normal tt)
  | c :: calls' =>
    match facade c with
    | (this, Normal _) => chain calls' this
    | (this, Throw e) => (this, Throw e)
    end
  end.

(** Calls made one after the other on an instance whose reference the
    caller keeps, errors being caught: the state after all of them. *)
Fixpoint after (calls : list call) (this : CSSPath.t) : CSSPath.t :=
  match calls with
  | [] => this
  | c :: calls' => after calls' (fst (invoke c this))
  end.

(** The calls among them that returned normally, in call order. *)
Fixpoint accepted (calls : list call) (this : CSSPath.t) : list call :=
  match calls with
  | [] => []
  | c :: calls' =>
    let r := invoke c this in
    (if is_Normal (snd r) then [c] else []) ++ accepted calls' (fst r)
  end.

(** The categories [checkOrder] inspects for a call on [f]. *)
Definition later (f : string) : list string :=
  slice (indexOf f CSSPath.order + 1) CSSPath.order.

(** What a property contributes to [stringify]: its string when it is set,
    nothing when it is missing. *)
Definition part (this : CSSPath.t) (f : string) : string :=
  default "" (this !! f).

(** The duplicate check rejects the call. *)
Definition duplicated (this : CSSPath.t) (c : call) : bool :=
  once c && truthy (this !! field c).

(** Some category after the one of the call holds a non-empty string. *)
Definition overtaken (this : CSSPath.t) (c : call) : bool :=
  some (λ f, truthy (this !! f)) (later (field c)).

(** The states an instance created by the facade can be in. *)
Definition reachable (this : CSSPath.t) : Prop :=
  ∃ calls, this = after calls CSSPath.constructor.

(** A property after [element] that is present either holds a non-empty
    string or is followed by a property that does: the empty accumulators
    are only ever left behind by a call the order check rejected. *)
Definition settled (this : CSSPath.t) : Prop :=
  ∀ f, f ∈ later "element" → is_Some (this !! f) →
    truthy (this !! f) = true ∨
    ∃ g, g ∈ later f ∧ truthy (this !! g) = true.

Definition concat_strings (l : list string) : string :=
  foldr String.append "" l.

(** The fragments of the calls of one category, in call order. *)
Definition fragments (f : string) (calls : list call) : string :=
  concat_strings (fragment <$> filter (λ c, field c = f) calls).

(** The selector text of a sequence of calls: category by category in the
    fixed order, the fragments of that category's calls. *)
Definition expected (calls : list call) : string :=
  concat_strings ((λ f, fragments f calls) <$> CSSPath.order).

(** The calls arrive in non-decreasing precedence order. *)
Definition ordered (calls : list call) : Prop :=
  Sorted (λ c1 c2, (rank c1 ≤ rank c2)%nat) calls.

(** No guarded category (element, id, pseudo-element) is called twice. *)
Definition unrepeated (calls : list call) : Prop :=
  NoDup (field <$> filter (λ c, once c) calls).

(** ** function Rectangle *)

(** The two data properties of an instance; [getArea] is an arrow function
    closed over [this], so it reads them when it is called. *)
Record rectangle : Type := { width : float; height : float }.

Definition Rectangle (width height : float) : rectangle :=
  {| width := width; height := height |}.

Definition getArea (this : rectangle) : float :=
  (this.(width) * this.(height))%float.

(** [r.width = w] and [r.height = h]. *)
Definition set_width (w : float) (r : rectangle) : rectangle :=
  {| width := w; height := r.(height) |}.

Definition set_height (h : float) (r : rectangle) : rectangle :=
  {| width := r.(width); height := h |}.

(** ** getJSON and fromJSON *)

(** What a function object does when it is called. The two accessor
    functions of [Object.prototype.__proto__] are the host's and are
    spelled out below; any other function is known by a name only. *)
Inductive function : Type :=
| get_proto
| set_proto
| function_named (name : string).

(** Values, ordinary objects and their properties. An object has its
    [[Prototype]] ([None] is [null]), its [[Extensible]] flag, its own
    string-keyed properties and, when it is a function, what it does.
    A data property has its value and its [[Writable]] and [[Enumerable]]
    attributes; an accessor property has its [[Get]] and [[Set]] functions
    and its [[Enumerable]] attribute. Objects are trees here: symbol keys,
    exotic objects and the identity of objects are left out. *)
#[warnings="-register-all"]
Inductive value : Type :=
| VUndefined
| VNull
| VBoolean (b : bool)
| VNumber (n : float)
| VString (s : string)
| VObject (o : object)
with object : Type :=
| mkObject (prototype : option object) (extensible : bool)
           (properties : gmap string property) (callable : option function)
with property : Type :=
| DataProperty (v : value) (writable enumerable : bool)
| AccessorProperty (getter setter : option function) (enumerable : bool).

Definition prototype (o : object) : option object :=
  match o with mkObject p _ _ _ => p end.

Definition extensible (o : object) : bool :=
  match o with mkObject _ e _ _ => e end.

Definition properties (o : object) : gmap string property :=
  match o with mkObject _ _ props _ => props end.

Definition is_enumerable (d : property) : bool :=
  match d with
  | DataProperty _ _ e => e
  | AccessorProperty _ _ e => e
  end.

(** The property a name resolves to: the object's own one, or else the
    first one on the prototype chain. *)
Fixpoint find_property (o : object) (k : string) : option property :=
  match o with
  | mkObject p _ props _ =>
    match props !! k with
    | Some d => Some d
    | None =>
      match p with
      | Some o' => find_property o' k
      | None => None
      end
    end
  end.

(** What the module takes from the host: [JSON.stringify] and
    [JSON.parse], the order in which the own property keys of an object
    are listed, what the functions other than the two above do when they
    are called as a getter or as a setter on a receiver (the result, and
    the receiver as the call leaves it), and the [TypeError]s the host
    throws. *)
Record host : Type := {
  JSON_stringify : value → completion value;
  JSON_parse : string → completion value;
  OwnPropertyKeys : object → list string;
  Call_getter : string → object → completion (value * object);
  Call_setter : string → object → value → completion object;
  TypeError_create : value → Error;
  TypeError_assign : string → Error;
  TypeError_setPrototype : Error
}.

(** [[SetPrototypeOf]] of an ordinary object, for a new prototype that is
    another object than the current one and has not the object on its own
    chain (objects are trees here): it needs the object to be
    extensible. *)
Definition SetPrototypeOf (h : host) (o : object) (p : option object)
  : completion object :=
  match o with
  | mkObject current e props c =>
    if e then Normal (mkObject p e props c)
    else match p, current with
         | None, None => Normal o
         | _, _ => Throw (TypeError_setPrototype h)
         end
  end.

(** A call of [f] as a setter, [this] being the receiver. The setter of
    [__proto__] changes the prototype when it is given an object or
    [null] and does nothing otherwise. *)
Definition call_setter (h : host) (f : function) (this : object) (v : value)
  : completion object :=
  match f with
  | set_proto =>
    match v with
    | VObject p => SetPrototypeOf h this (Some p)
    | VNull => SetPrototypeOf h this None
    | _ => Normal this
    end
  | get_proto => Normal this
  | function_named name => Call_setter h name this v
  end.

(** A call of [f] as a getter. *)
Definition call_getter (h : host) (f : function) (this : object)
  : completion (value * object) :=
  match f with
  | get_proto =>
    Normal (match prototype this with Some p => VObject p | None => VNull end,
            this)
  | set_proto => Normal (VUndefined, this)
  | function_named name => Call_getter h name this
  end.

(** The last step of [[Set]] for a data property: the value is written on
    the receiver, over an own writable data property or as a new
    property. *)
Definition set_on_receiver (receiver : object) (k : string) (v : value)
  : bool * object :=
  match receiver with
  | mkObject p e props c =>
    match props !! k with
    | Some (DataProperty _ true en) =>
      (true, mkObject p e (<[k := DataProperty v true en]> props) c)
    | Some (DataProperty _ false _) => (false, receiver)
    | Some (AccessorProperty _ _ _) => (false, receiver)
    | None =>
      if e then (true, mkObject p e (<[k := DataProperty v true true]> props) c)
      else (false, receiver)
    end
  end.

(** [[Set]] of an ordinary object: the property is looked for on [o] and
    then up its prototype chain. A read-only data property and an accessor
    without a setter refuse the write, a setter is called on the receiver,
    and otherwise the value is written on the receiver. *)
Fixpoint OrdinarySet (h : host) (o : object) (k : string) (v : value)
    (receiver : object) : completion (bool * object) :=
  match o with
  | mkObject p _ props _ =>
    match props !! k with
    | Some (DataProperty _ w _) =>
      if w then Normal (set_on_receiver receiver k v)
      else Normal (false, receiver)
    | Some (AccessorProperty _ (Some f) _) =>
      completion_bind (call_setter h f receiver v) (λ r, Normal (true, r))
    | Some (AccessorProperty _ None _) => Normal (false, receiver)
    | None =>
      match p with
      | Some o' => OrdinarySet h o' k v receiver
      | None => Normal (set_on_receiver receiver k v)
      end
    end
  end.

(** [Get(from, k)] for an own property [d] of [from]. *)
Definition get_own (h : host) (from : object) (d : property)
  : completion (value * object) :=
  match d with
  | DataProperty v _ _ => Normal (v, from)
  | AccessorProperty (Some f) _ _ => call_getter h f from
  | AccessorProperty None _ _ => Normal (VUndefined, from)
  end.

(** The loop of [Object.assign] over the keys of the source: every key
    that is still an own enumerable property is read from the source and
    written on the target with [[Set]]; a refused write throws. *)
Fixpoint assign_keys (h : host) (keys : list string) (to from : object)
  : completion (object * object) :=
  match keys with
  | [] => Normal (to, from)
  | k :: keys' =>
    match properties from !! k with
    | Some d =>
      if is_enumerable d then
        completion_bind (get_own h from d) (λ got,
        completion_bind (OrdinarySet h to k got.1 to) (λ written,
        if written.1 then assign_keys h keys' written.2 got.2
        else Throw (TypeError_assign h k)))
      else assign_keys h keys' to from
    | None => assign_keys h keys' to from
    end
  end.

(** A count as a number; the sum is exact below 2^53, beyond the length
    of any string. *)
Fixpoint number_of_nat (n : nat) : float :=
  match n with
  | O => 0%float
  | S n' => (number_of_nat n' + 1)%float
  end.

(** The own properties of [new String(s)]: one read-only enumerable
    property per character, and [length]. *)
Definition string_properties (s : string) : gmap string property :=
  <["length" := DataProperty (VNumber (number_of_nat (String.length s)))
      false false]>
    (list_to_map
       (imap (λ i a, (pretty i, DataProperty (VString (String a "")) false true))
          (list_ascii_of_string s))).

(** [ToObject] as [Object.assign] uses it on a source: [undefined] and
    [null] are skipped, an object is itself, a primitive is wrapped. Only
    the own properties of a wrapper are read, so its prototype is left
    out. *)
Definition ToObject (v : value) : option object :=
  match v with
  | VUndefined | VNull => None
  | VBoolean _ | VNumber _ => Some (mkObject None true ∅ None)
  | VString s => Some (mkObject None true (string_properties s) None)
  | VObject o => Some o
  end.

(** [Object.assign(target, source)] *)
Definition Object_assign (h : host) (target : object) (source : value)
  : completion object :=
  match ToObject source with
  | None => Normal target
  | Some from =>
    completion_bind (assign_keys h (OwnPropertyKeys h from) target from)
      (λ r, Normal r.1)
  end.

(** [Object.create(proto)] *)
Definition Object_create (h : host) (proto : value) : completion object :=
  match proto with
  | VObject p => Normal (mkObject (Some p) true ∅ None)
  | VNull => Normal (mkObject None true ∅ None)
  | _ => Throw (TypeError_create h proto)
  end.


(** The arguments of [Object.assign] are evaluated from left to right:
    [Object.create(proto)], then [JSON.parse(json)]. *)
Definition fromJSON (h : host) (proto : value) (json : string)
  : completion object :=
  completion_bind (Object_create h proto) (λ target,
  completion_bind (JSON_parse h json) (λ parsed,
  Object_assign h target parsed)).

(** The object [JSON.parse] makes for an object text: all its properties
    are writable, enumerable data properties. *)
Definition plain (o : object) : Prop :=
  ∀ k d, properties o !! k = Some d → ∃ v, d = DataProperty v true true.

(** The host lists every own property key of [o]. *)
Definition enumerated (h : host) (o : object) : Prop :=
  ∀ k, is_Some (properties o !! k) → k ∈ OwnPropertyKeys h o.

(** [[Set]] of the name [k] through the prototype [proto] reaches no
    accessor and no read-only property. *)
Definition writable_through (proto : option object) (k : string) : Prop :=
  match proto with
  | None => True
  | Some o =>
    match find_property o k with
    | None => True
    | Some (DataProperty _ w _) => w = true
    | Some (AccessorProperty _ _ _) => False
    end
  end.

(** No field of [source] meets an accessor or a read-only property on the
    prototype chain that starts at [proto]. *)
Definition unobstructed (proto : option object) (source : object) : Prop :=
  ∀ k, is_Some (properties source !! k) → writable_through proto k.



(** ** Objects of the host and of the documented example *)

(** A function as a value; its own properties and its prototype play no
    part in what follows and are left out. *)
Definition function_object (name : string) : value :=
  VObject (mkObject None true ∅ (Some (function_named name))).

(** A method as the host and plain assignment define it: writable, and
    enumerable only when a program assigned it. *)
Definition method_property (name : string) (enumerable : bool) : property :=
  DataProperty (function_object name) true enumerable.

(** [Object.prototype]: its methods, and the accessor [__proto__]. *)
Definition Object_prototype : object :=
  mkObject None true
    (list_to_map
       [("constructor", method_property "Object" false);
        ("__defineGetter__", method_property "__defineGetter__" false);
        ("__defineSetter__", method_property "__defineSetter__" false);
        ("hasOwnProperty", method_property "hasOwnProperty" false);
        ("__lookupGetter__", method_property "__lookupGetter__" false);
        ("__lookupSetter__", method_property "__lookupSetter__" false);
        ("isPrototypeOf", method_property "isPrototypeOf" false);
        ("propertyIsEnumerable", method_property "propertyIsEnumerable" false);
        ("toString", method_property "toString" false);
        ("valueOf", method_property "valueOf" false);
        ("toLocaleString", method_property "toLocaleString" false);
        ("__proto__", AccessorProperty (Some get_proto) (Some set_proto) false)])
    None.


(** An object literal with the given fields. *)
Definition literal (fields : list (string * value)) : object :=
  mkObject (Some Object_prototype) true
    (list_to_map (prod_map id (λ v, DataProperty v true true) <$> fields))
    None.


(** A host as one example observes it: it answers [text] to
    [JSON.stringify] and [parsed] to [JSON.parse], lists [keys] as own
    property keys, and no function other than the accessors of
    [__proto__] is called. *)
Definition observed (text : string) (parsed : object) (keys : list string)
  : host :=
  {| JSON_stringify := λ _, Normal (VString text);
     JSON_parse := λ _, Normal (VObject parsed);
     OwnPropertyKeys := λ _, keys;
     Call_getter := λ _ this, Normal (VUndefined, this);
     Call_setter := λ _ this _, Normal this;
     TypeError_create := λ _, mkError "TypeError";
     TypeError_assign := λ _, mkError "TypeError";
     TypeError_setPrototype := mkError "TypeError" |}.

Definition quoted (s : string) : string :=
  String "034"%char (s +:+ String "034"%char "").

(** The prototype a value stands for as an argument of [Object.create]:
    an object or [null], nothing else. *)
Definition as_prototype (proto : value) : option (option object) :=
  match proto with
  | VObject p => Some (Some p)
  | VNull => Some None
  | _ => None
  end.

(** The values with no own property for [Object.assign] to copy:
    [undefined], [null], booleans and numbers. *)
Definition fieldless (x : value) : bool :=
  match x with
  | VUndefined | VNull | VBoolean _ | VNumber _ => true
  | VString _ | VObject _ => false
  end.

(** The texts and objects of the examples. *)
Definition circle_text : string := "{" +:+ quoted "radius" +:+ ":10}".
Definition circle_fields : object := literal [("radius", VNumber 10)].



(** ** Reading a selector as a sequence of tokens *)

(** The texts of the simple selectors and the combinator tokens of a
    selector, from left to right. *)
Fixpoint tokens (this : selector) : list string :=
  match this with
  | Path css => [CSSPath.stringify css]
  | CombinedPath firstSelector combinator secondSelector =>
    tokens firstSelector ++ combinator :: tokens secondSelector
  end.

(** The strings of a list with [sep] between neighbours. *)
Fixpoint joined (sep : string) (l : list string) : string :=
  match l with
  | [] => ""
  | s :: l' =>
    match l' with
    | [] => s
    | _ :: _ => s +:+ sep +:+ joined sep l'
    end
  end.

(** A call of a guarded category that stores a non-empty string. *)
Definition occupies (f : string) (c : call) : Prop :=
  field c = f ∧ fragment c ≠ "".

(** ** Tactics *)

(** Unfold a call down to its reads, writes and order check. *)
Ltac run_call :=
  unfold invoke, CSSPath.element, CSSPath.id, CSSPath.pseudoElement,
    CSSPath.class, CSSPath.attr, CSSPath.pseudoClass, method_bind,
    CSSPath.get, CSSPath.set, method_ret, throw;
  cbn [fst snd].

(** Split a membership in an explicit list into one goal per element. *)
Ltac elem_cases H :=
  repeat (apply elem_of_cons in H as [->|H]); [..|by apply elem_of_nil in H].

(** * Properties *)

(** ** Strings *)

Lemma app_empty_r (s : string) : s +:+ "" = s.
Proof.
  induction s as [|a s IH]; [done|].
  change (String a (s +:+ "") = String a s). by rewrite IH.
Qed.

Lemma app_assoc_str (s1 s2 s3 : string) :
  (s1 +:+ s2) +:+ s3 = s1 +:+ s2 +:+ s3.
Proof.
  induction s1 as [|a s1 IH]; [done|].
  change (String a ((s1 +:+ s2) +:+ s3) = String a (s1 +:+ s2 +:+ s3)).
  by rewrite IH.
Qed.

Lemma truthy_part (this : CSSPath.t) (f : string) :
  truthy (this !! f) = negb (String.eqb (part this f) "").
Proof. unfold part. by destruct (this !! f) as [[|a s]|]. Qed.

Lemma falsy_part (this : CSSPath.t) (f : string) :
  truthy (this !! f) = false → part this f = "".
Proof. unfold part. by destruct (this !! f) as [[|a s]|]. Qed.

Lemma truthy_toString (this : CSSPath.t) (f : string) :
  truthy (this !! f) = true → toString (this !! f) = part this f.
Proof. unfold part. by destruct (this !! f) as [[|a s]|]. Qed.

Lemma part_insert (this : CSSPath.t) (f g v : string) :
  part (<[f := v]> this) g = if decide (f = g) then v else part this g.
Proof.
  unfold part. rewrite lookup_insert. by case_decide.
Qed.

(** ** The six mutating calls *)

Lemma checkOrder_unfold (f : string) (this : CSSPath.t) :
  CSSPath.checkOrder f this =
  (this, if some (λ g, truthy (this !! g)) (later f)
         then Throw CSSPath.orderError else Normal tt).
Proof. unfold CSSPath.checkOrder, later. by case (some _ _). Qed.

Lemma some_insert_notin (f v : string) (l : list string) (this : CSSPath.t) :
  f ∉ l →
  some (λ g, truthy (<[f := v]> this !! g)) l =
  some (λ g, truthy (this !! g)) l.
Proof.
  unfold some. induction l as [|g l IH]; [done|].
  intros [Hne Hl]%not_elem_of_cons. cbn [existsb].
  by rewrite lookup_insert_ne, IH.
Qed.

Lemma field_notin_later (c : call) : field c ∉ later (field c).
Proof. destruct c; apply (bool_decide_unpack _); by vm_compute. Qed.

Lemma invoke_completion (c : call) (this : CSSPath.t) :
  snd (invoke c this) =
  if duplicated this c then Throw CSSPath.duplicateError
  else if overtaken this c then Throw CSSPath.orderError
  else Normal tt.
Proof.
  unfold duplicated, overtaken.
  pose proof (field_notin_later c) as Hc.
  destruct c; run_call; cbn [once field andb] in *;
    destruct (truthy (this !! _)); cbn [negb snd];
    rewrite ?checkOrder_unfold, ?some_insert_notin by done;
    try done; by destruct (some _ _).
Qed.

Lemma invoke_state (c : call) (this : CSSPath.t) :
  fst (invoke c this) =
  if duplicated this c then this
  else if overtaken this c
       then if once c || truthy (this !! field c) then this
            else <[field c := ""]> this
       else <[field c := part this (field c) +:+ fragment c]> this.
Proof.
  unfold duplicated, overtaken.
  pose proof (field_notin_later c) as Hc.
  destruct c; run_call; cbn [once field fragment andb orb] in *;
    destruct (truthy (this !! _)) eqn:Ht; cbn [negb fst];
    rewrite ?checkOrder_unfold, ?some_insert_notin by done;
    try done; destruct (some _ _); cbn [fst]; try done.
  all: rewrite ?insert_insert_eq, ?lookup_insert_eq; cbn [toString].
  all: rewrite ?(falsy_part _ _ Ht), ?(truthy_toString _ _ Ht); try done.
Qed.

Lemma invoke_Normal (c : call) (this : CSSPath.t) :
  snd (invoke c this) = Normal tt ↔
  duplicated this c = false ∧ overtaken this c = false.
Proof.
  rewrite invoke_completion.
  destruct (duplicated this c), (overtaken this c); intuition congruence.
Qed.

Lemma invoke_Throw (c : call) (this : CSSPath.t) (e : Error) :
  snd (invoke c this) = Throw e →
  duplicated this c || overtaken this c = true.
Proof.
  rewrite invoke_completion.
  by destruct (duplicated this c), (overtaken this c).
Qed.

Lemma invoke_part (c : call) (this : CSSPath.t) (f : string) :
  part (fst (invoke c this)) f =
  if is_Normal (snd (invoke c this)) && bool_decide (field c = f)
  then part this f +:+ fragment c else part this f.
Proof.
  rewrite invoke_state, invoke_completion.
  destruct (duplicated this c); [done|].
  destruct (overtaken this c); cbn [is_Normal andb].
  - destruct (once c || truthy (this !! field c)) eqn:Ht; [done|].
    apply orb_false_elim in Ht as [_ Ht].
    rewrite part_insert. case_decide; [subst f|done].
    by rewrite (falsy_part _ _ Ht).
  - rewrite part_insert. case_bool_decide; case_decide; naive_solver.
Qed.

Lemma fragments_cons (f : string) (c : call) (calls : list call) :
  fragments f (c :: calls) =
  (if bool_decide (field c = f) then fragment c else "") +:+ fragments f calls.
Proof.
  unfold fragments. rewrite filter_cons.
  case_decide; case_bool_decide; naive_solver.
Qed.

Lemma chain_part (calls : list call) (this this' : CSSPath.t) (f : string) :
  chain calls this = (this', Normal tt) →
  part this' f = part this f +:+ fragments f calls.
Proof.
  revert this. induction calls as [|c calls IH]; intros this.
  - intros [= <-]. by rewrite app_empty_r.
  - cbn [chain]. unfold method_bind.
    pose proof (invoke_part c this f) as Hp.
    destruct (invoke c this) as [this1 [[]|e]]; [|done].
    intros Hrest%IH. rewrite Hrest, fragments_cons.
    cbn [fst snd is_Normal andb] in Hp. rewrite Hp.
    case_bool_decide; [by rewrite app_assoc_str|done].
Qed.

Lemma addPart_part (this : CSSPath.t) (f result : string) :
  CSSPath.addPart this f result = result +:+ part this f.
Proof.
  unfold CSSPath.addPart. destruct (truthy (this !! f)) eqn:Ht.
  - by rewrite truthy_toString.
  - by rewrite falsy_part, app_empty_r.
Qed.

Lemma stringify_parts (this : CSSPath.t) :
  CSSPath.stringify this = concat_strings (part this <$> CSSPath.order).
Proof.
  unfold CSSPath.stringify. rewrite !addPart_part.
  unfold concat_strings, CSSPath.order. cbn [fmap list_fmap foldr].
  by rewrite !app_assoc_str, app_empty_r.
Qed.

Lemma facade_invoke (c : call) : facade c = invoke c CSSPath.constructor.
Proof. by destruct c. Qed.

Lemma build_chain (calls : list call) :
  build calls = chain calls CSSPath.constructor.
Proof.
  destruct calls as [|c calls]; [done|].
  cbn [build chain]. unfold method_bind. by rewrite facade_invoke.
Qed.

Lemma part_constructor (f : string) : part CSSPath.constructor f = "".
Proof. unfold part, CSSPath.constructor. by rewrite lookup_empty. Qed.

Lemma build_stringify (calls : list call) (this : CSSPath.t) :
  build calls = (this, Normal tt) →
  CSSPath.stringify this = expected calls.
Proof.
  rewrite build_chain. intros Hc.
  rewrite stringify_parts. unfold expected. f_equal.
  apply list_fmap_ext. intros _ f _.
  by rewrite (chain_part _ _ _ f Hc), part_constructor.
Qed.

(** ** Precedence *)

Lemma elem_of_later (c c' : call) :
  field c ∈ later (field c') ↔ (rank c' < rank c)%nat.
Proof. destruct c, c'; apply (bool_decide_unpack _); by vm_compute. Qed.

Lemma once_field (c c' : call) : field c = field c' → once c = once c'.
Proof. by destruct c, c'. Qed.

Lemma overtaken_insert (c c' : call) (v : string) (this : CSSPath.t) :
  (rank c ≤ rank c')%nat →
  overtaken (<[field c := v]> this) c' = overtaken this c'.
Proof.
  intros Hle. unfold overtaken. apply some_insert_notin.
  rewrite elem_of_later. lia.
Qed.

Lemma chain_succeeds (calls : list call) (this : CSSPath.t) :
  StronglySorted (λ c1 c2, (rank c1 ≤ rank c2)%nat) calls →
  unrepeated calls →
  (∀ c, c ∈ calls → duplicated this c = false ∧ overtaken this c = false) →
  ∃ this', chain calls this = (this', Normal tt).
Proof.
  revert this. induction calls as [|c calls IH]; intros this Hs Hu Hok.
  - by exists this.
  - apply StronglySorted_inv in Hs as [Hs Hle].
    rewrite Forall_forall in Hle.
    destruct (Hok c) as [Hd Ho]; [by left|].
    cbn [chain]. unfold method_bind.
    pose proof (invoke_completion c this) as Hr.
    pose proof (invoke_state c this) as Hst.
    rewrite Hd, Ho in Hr, Hst.
    destruct (invoke c this) as [this1 r]. cbn [fst snd] in *. subst.
    apply IH; [done| |].
    + unfold unrepeated in *. rewrite filter_cons in Hu.
      case_decide; [|done]. rewrite fmap_cons in Hu.
      by apply NoDup_cons in Hu as [_ Hu].
    + intros c' Hc'. destruct (Hok c') as [Hd' Ho']; [by right|].
      split; [|rewrite overtaken_insert; [done|by apply Hle]].
      unfold duplicated in *. destruct (once c') eqn:Honce; [|done].
      cbn [andb] in *. rewrite lookup_insert_ne; [done|].
      intros Heq. unfold unrepeated in Hu. rewrite filter_cons in Hu.
      rewrite (once_field _ _ Heq), Honce in Hu.
      case_decide as Hx; [|by apply Hx].
      rewrite fmap_cons in Hu. apply NoDup_cons in Hu as [Hnot _].
      apply Hnot. rewrite Heq. apply list_elem_of_fmap_2.
      apply list_elem_of_filter. by rewrite Honce.
Qed.

Lemma ordered_strongly (calls : list call) :
  ordered calls → StronglySorted (λ c1 c2, (rank c1 ≤ rank c2)%nat) calls.
Proof.
  apply Sorted_StronglySorted. intros c1 c2 c3 H12 H23. lia.
Qed.

Lemma fragments_none (f : string) (calls : list call) :
  (∀ c, c ∈ calls → field c ≠ f) → fragments f calls = "".
Proof.
  induction calls as [|c calls IH]; intros Hne; [done|].
  rewrite fragments_cons, IH.
  - rewrite bool_decide_eq_false_2; [done|]. apply Hne. by left.
  - intros c' Hc'. apply Hne. by right.
Qed.

Lemma rank_field (c c' : call) : field c = field c' → rank c = rank c'.
Proof. by destruct c, c'. Qed.

(** For calls in precedence order, grouping the fragments by category does
    not move any of them. *)
Lemma expected_ordered (calls : list call) :
  StronglySorted (λ c1 c2, (rank c1 ≤ rank c2)%nat) calls →
  expected calls = concat_strings (fragment <$> calls).
Proof.
  induction 1 as [|c calls Hs IH Hle]; [done|].
  rewrite fmap_cons. cbn [concat_strings foldr]. fold (concat_strings (fragment <$> calls)).
  rewrite <- IH. clear IH. rewrite Forall_forall in Hle.
  assert (∀ c0, (rank c0 < rank c)%nat → fragments (field c0) calls = "") as Hbefore.
  { intros c0 Hlt. apply fragments_none. intros c' Hc' Heq.
    apply Hle in Hc'. apply rank_field in Heq. lia. }
  pose proof (Hbefore (call_element "")) as H0.
  pose proof (Hbefore (call_id "")) as H1.
  pose proof (Hbefore (call_class "")) as H2.
  pose proof (Hbefore (call_attr "")) as H3.
  pose proof (Hbefore (call_pseudoClass "")) as H4.
  unfold expected, CSSPath.order, concat_strings.
  cbn [fmap list_fmap foldr]. rewrite !fragments_cons.
  destruct c; cbn [field rank bool_decide] in *;
    rewrite ?H0, ?H1, ?H2, ?H3, ?H4 by lia;
    repeat (rewrite bool_decide_eq_false_2 by done);
    rewrite bool_decide_eq_true_2 by done;
    repeat (rewrite bool_decide_eq_false_2 by done);
    by rewrite ?app_assoc_str.
Qed.

(** ** Properties of CSSPath *)

(** C1. For a sequence of chained builder calls made in non-decreasing
    precedence order, [stringify()] returns the concatenation, in the fixed
    category order, of the stored fragments (the element value verbatim,
    ['#'+id], ['.'+class] per call in call order, ['['+attr+']'],
    [':'+pseudoClass], ['::'+pseudoElement]) with nothing between them:
    such a chain returns a selector whenever no guarded category is called
    twice, every such chain that returns yields that string, and that
    string is also the plain concatenation of the fragments in call
    order. *)
Theorem C1_stringify_concatenation (calls : list call) :
  ordered calls →
  (unrepeated calls → ∃ this, build calls = (this, Normal tt)) ∧
  (∀ this, build calls = (this, Normal tt) →
     CSSPath.stringify this = expected calls) ∧
  expected calls = concat_strings (fragment <$> calls).
Proof.
  intros Hs%ordered_strongly. split_and!.
  - intros Hu. rewrite build_chain. apply chain_succeeds; [done..|].
    intros c _. destruct c; by vm_compute.
  - apply build_stringify.
  - by apply expected_ordered.
Qed.

Lemma C1_witness :
  ordered [call_id "main"; call_class "container"; call_class "editable"] ∧
  ∃ this,
    build [call_id "main"; call_class "container"; call_class "editable"]
    = (this, Normal tt) ∧
    CSSPath.stringify this = "#main.container.editable".
Proof.
  assert (ordered [call_id "main"; call_class "container";
                   call_class "editable"]) as Ho.
  { unfold ordered. repeat constructor; cbn; lia. }
  split; [exact Ho|].
  destruct (C1_stringify_concatenation _ Ho) as (Hret & Hstr & _).
  destruct Hret as [this Hthis].
  { apply (bool_decide_unpack _). vm_compute. exact I. }
  exists this. split; [exact Hthis|].
  rewrite (Hstr this Hthis). reflexivity.
Defined.

(** ** What a call leaves behind *)

Lemma eqb_empty_app (s1 s2 : string) :
  String.eqb (s1 +:+ s2) "" = String.eqb s1 "" && String.eqb s2 "".
Proof. by destruct s1. Qed.

Lemma fragment_nonempty (c : call) :
  (0 < rank c)%nat → String.eqb (fragment c) "" = false.
Proof. destruct c; cbn [rank]; [lia|done..]. Qed.

(** A property that holds a non-empty string keeps holding one. *)
Lemma truthy_invoke_mono (c : call) (this : CSSPath.t) (f : string) :
  truthy (this !! f) = true → truthy (fst (invoke c this) !! f) = true.
Proof.
  rewrite !truthy_part, invoke_part.
  destruct (_ && _); [|done].
  rewrite eqb_empty_app. by intros ->%negb_true_iff.
Qed.

(** A call that returns, other than [element], leaves a non-empty string
    in its property. *)
Lemma accepted_truthy (c : call) (this : CSSPath.t) :
  snd (invoke c this) = Normal tt → (0 < rank c)%nat →
  truthy (fst (invoke c this) !! field c) = true.
Proof.
  intros Hn Hr. rewrite truthy_part, invoke_part, Hn.
  cbn [is_Normal andb]. rewrite bool_decide_eq_true_2 by done.
  by rewrite eqb_empty_app, (fragment_nonempty _ Hr), andb_false_r.
Qed.

Lemma overtaken_true (this : CSSPath.t) (c : call) :
  overtaken this c = true ↔
  ∃ f, f ∈ later (field c) ∧ truthy (this !! f) = true.
Proof.
  unfold overtaken, some. rewrite existsb_exists.
  by setoid_rewrite list_elem_of_In.
Qed.

Lemma overtaken_invoke_mono (c c' : call) (this : CSSPath.t) :
  overtaken this c' = true → overtaken (fst (invoke c this)) c' = true.
Proof.
  rewrite !overtaken_true. intros (f & Hf & Ht).
  exists f. split; [done|]. by apply truthy_invoke_mono.
Qed.

Lemma accepted_sorted (calls : list call) (this : CSSPath.t) :
  StronglySorted (λ c1 c2, (rank c1 ≤ rank c2)%nat) (accepted calls this) ∧
  ∀ c, c ∈ accepted calls this → overtaken this c = false.
Proof.
  revert this. induction calls as [|c0 calls IH]; intros this.
  { split; [constructor|]. by intros c ?%elem_of_nil. }
  cbn [accepted]. destruct (IH (fst (invoke c0 this))) as [Hs Hnot].
  assert (∀ c, c ∈ accepted calls (fst (invoke c0 this)) →
               overtaken this c = false) as Hnot'.
  { intros c Hc%Hnot. destruct (overtaken this c) eqn:Ho; [|done].
    by rewrite (overtaken_invoke_mono c0) in Hc. }
  destruct (snd (invoke c0 this)) as [[]|e] eqn:Hr; cbn [is_Normal app]; [|done].
  split.
  - constructor; [done|]. apply Forall_forall. intros c Hc.
    destruct (decide (rank c0 ≤ rank c)%nat) as [|Hlt]; [done|].
    apply Hnot in Hc. apply not_true_iff_false in Hc. destruct Hc.
    apply overtaken_true. exists (field c0). split.
    + apply elem_of_later. lia.
    + apply accepted_truthy; [done|lia].
  - intros c [->|Hc]%elem_of_cons; [|by apply Hnot'].
    by apply invoke_Normal in Hr as [_ Hr].
Qed.

(** C4. Invariant I2 on every state reachable through the facade and
    further calls: among the calls an instance has accepted, taken in call
    order, every earlier one has a precedence rank no greater than every
    later one. Once a later category has been written, no call of a
    strictly earlier category returns normally. Calls that throw are
    allowed in between and the instance kept in use. *)
Theorem C4_accepted_calls_ordered (calls : list call) :
  StronglySorted (λ c1 c2, (rank c1 ≤ rank c2)%nat)
    (accepted calls CSSPath.constructor).
Proof. apply accepted_sorted. Qed.

(** C9. If a mutating call throws, [stringify()] on the instance afterwards
    returns the string it returned before the call, also for [class],
    [attr] and [pseudoClass], which store an empty accumulator before the
    order check runs. *)
Theorem C9_throw_preserves_stringify (c : call) (this : CSSPath.t) (e : Error) :
  snd (invoke c this) = Throw e →
  CSSPath.stringify (fst (invoke c this)) = CSSPath.stringify this.
Proof.
  intros Hthrow. rewrite !stringify_parts. f_equal.
  apply list_fmap_ext. intros _ f _.
  by rewrite invoke_part, Hthrow.
Qed.

Lemma C9_witness :
  snd (invoke (call_class "x") (fst (cssSelectorBuilder.pseudoElement "after")))
  = Throw CSSPath.orderError ∧
  fst (invoke (call_class "x") (fst (cssSelectorBuilder.pseudoElement "after")))
    !! "class" = Some "" ∧
  CSSPath.stringify
    (fst (invoke (call_class "x")
            (fst (cssSelectorBuilder.pseudoElement "after"))))
  = "::after".
Proof.
  split; [vm_compute; reflexivity|].
  split; [vm_compute; reflexivity|].
  rewrite (C9_throw_preserves_stringify (call_class "x")
             (fst (cssSelectorBuilder.pseudoElement "after"))
             CSSPath.orderError).
  - vm_compute. reflexivity.
  - vm_compute. reflexivity.
Defined.

(** ** Reachable states *)

Lemma invoke_lookup_ne (c : call) (this : CSSPath.t) (f : string) :
  f ≠ field c → fst (invoke c this) !! f = this !! f.
Proof.
  intros Hne. rewrite invoke_state.
  repeat match goal with |- context [if ?b then _ else _] => destruct b end;
    by rewrite ?lookup_insert_ne.
Qed.

Lemma later_element (c : call) (f : string) :
  f ∈ later (field c) → f ∈ later "element".
Proof.
  intros H. destruct c; vm_compute in H; elem_cases H;
    apply (bool_decide_unpack _); by vm_compute.
Qed.

Lemma later_trans (c : call) (f g : string) :
  f ∈ later (field c) → g ∈ later f → g ∈ later (field c).
Proof.
  intros Hf Hg. destruct c; vm_compute in Hf; elem_cases Hf;
    vm_compute in Hg; elem_cases Hg;
    apply (bool_decide_unpack _); by vm_compute.
Qed.

Lemma later_field (f : string) :
  f ∈ later "element" → ∃ c, f = field c ∧ (0 < rank c)%nat.
Proof.
  intros H. vm_compute in H. elem_cases H.
  - exists (call_id ""). split; [done|cbn; lia].
  - exists (call_class ""). split; [done|cbn; lia].
  - exists (call_attr ""). split; [done|cbn; lia].
  - exists (call_pseudoClass ""). split; [done|cbn; lia].
  - exists (call_pseudoElement ""). split; [done|cbn; lia].
Qed.

Lemma settled_invoke (c : call) (this : CSSPath.t) :
  settled this → settled (fst (invoke c this)).
Proof.
  intros Hinv f Hf Hsome.
  destruct (decide (f = field c)) as [->|Hne].
  - destruct (later_field _ Hf) as (c' & Hc' & Hrank).
    rewrite (rank_field c' c) in Hrank by done.
    destruct (snd (invoke c this)) as [[]|e] eqn:Hr.
    { left. by apply accepted_truthy. }
    apply invoke_Throw, orb_true_iff in Hr as [Hd|Ho].
    + left. apply truthy_invoke_mono.
      by apply andb_true_iff in Hd as [_ Hd].
    + right. apply overtaken_true in Ho as (g & Hg & Ht).
      exists g. split; [done|]. by apply truthy_invoke_mono.
  - rewrite invoke_lookup_ne in Hsome by done.
    destruct (Hinv f Hf Hsome) as [Ht|(g & Hg & Ht)].
    + left. by apply truthy_invoke_mono.
    + right. exists g. split; [done|]. by apply truthy_invoke_mono.
Qed.

Lemma settled_after (calls : list call) (this : CSSPath.t) :
  settled this → settled (after calls this).
Proof.
  revert this. induction calls as [|c calls IH]; intros this Hinv; [done|].
  cbn [after]. by apply IH, settled_invoke.
Qed.

Lemma reachable_settled (this : CSSPath.t) : reachable this → settled this.
Proof.
  intros [calls ->]. apply settled_after.
  intros f _ [v Hv]. unfold CSSPath.constructor in Hv.
  by rewrite lookup_empty in Hv.
Qed.

(** On a reachable instance, a later category that is present at all
    implies a later category that holds a non-empty string. *)
Lemma reachable_present_later (this : CSSPath.t) (c : call) :
  reachable this →
  (∃ f, f ∈ later (field c) ∧ is_Some (this !! f)) ↔
  (∃ f, f ∈ later (field c) ∧ truthy (this !! f) = true).
Proof.
  intros Hinv%reachable_settled. split.
  - intros (f & Hf & Hsome).
    destruct (Hinv f (later_element _ _ Hf) Hsome) as [Ht|(g & Hg & Ht)].
    + by exists f.
    + exists g. split; [|done]. by apply (later_trans c f g).
  - intros (f & Hf & Ht). exists f. split; [done|].
    by destruct (this !! f) as [[|a s]|].
Qed.

Lemma errors_differ : CSSPath.duplicateError ≠ CSSPath.orderError.
Proof. discriminate. Qed.

(** A second call of a guarded category, after a first one that returned
    and stored a non-empty string, is rejected by the duplicate check. *)
Lemma second_call_duplicated (c c' : call) (this : CSSPath.t) :
  once c = true → field c' = field c →
  snd (invoke c this) = Normal tt →
  String.eqb (fragment c) "" = false →
  snd (invoke c' (fst (invoke c this))) = Throw CSSPath.duplicateError.
Proof.
  intros Honce Hf Hn Hfrag. rewrite (invoke_completion c').
  unfold duplicated. rewrite (once_field c' c Hf), Honce, Hf.
  rewrite truthy_part, invoke_part, Hn. cbn [is_Normal andb].
  rewrite bool_decide_eq_true_2 by done.
  by rewrite eqb_empty_app, Hfrag, andb_false_r.
Qed.

(** C2, as amended. A mutating call for category C throws the order error
    if and only if the duplicate check does not reject it first (C is
    element, id or pseudo-element and already holds a non-empty string)
    and some category strictly after C in the precedence order holds a
    non-empty string; on a reachable instance, a later category that is
    present at all implies one that holds a non-empty string. On a fresh
    instance, a call of a lower-precedence category after a
    higher-precedence one throws the order error, and two calls in
    non-decreasing precedence order never throw it. *)
Theorem C2_order_error (c : call) (this : CSSPath.t) :
  (snd (invoke c this) = Throw CSSPath.orderError ↔
   duplicated this c = false ∧
   ∃ f, f ∈ later (field c) ∧ truthy (this !! f) = true) ∧
  (reachable this →
   (∃ f, f ∈ later (field c) ∧ is_Some (this !! f)) ↔
   (∃ f, f ∈ later (field c) ∧ truthy (this !! f) = true)) ∧
  (∀ c', (rank c < rank c')%nat →
     snd (build [c'; c]) = Throw CSSPath.orderError) ∧
  (∀ c', (rank c ≤ rank c')%nat →
     snd (build [c; c']) ≠ Throw CSSPath.orderError).
Proof.
  split_and!.
  - rewrite invoke_completion, <- overtaken_true.
    destruct (duplicated this c), (overtaken this c); split;
      try done; by intros [? ?].
  - apply reachable_present_later.
  - intros c' Hlt.
    destruct c as [v|v|v|v|v|v], c' as [w|w|w|w|w|w];
      cbn [rank] in Hlt; try lia; by vm_compute.
  - intros c' Hle.
    destruct c as [v|v|v|v|v|v], c' as [w|w|w|w|w|w];
      cbn [rank] in Hle; try lia; try destruct v; by vm_compute.
Qed.

Lemma C2_witness :
  reachable (fst (cssSelectorBuilder.pseudoElement "after")) ∧
  snd (invoke (call_class "x") (fst (cssSelectorBuilder.pseudoElement "after")))
  = Throw CSSPath.orderError ∧
  snd (build [call_pseudoElement "after"; call_class "x"])
  = Throw CSSPath.orderError ∧
  snd (build [call_class "x"; call_pseudoElement "after"])
  ≠ Throw CSSPath.orderError.
Proof.
  pose proof (C2_order_error (call_class "x")
                (fst (cssSelectorBuilder.pseudoElement "after")))
    as (Hiff & Hreach & Hlow & Hhigh).
  assert (reachable (fst (cssSelectorBuilder.pseudoElement "after"))) as Hr.
  { exists [call_pseudoElement "after"]. reflexivity. }
  split; [exact Hr|]. split.
  - apply Hiff. split; [reflexivity|].
    apply (proj1 (Hreach Hr)). exists "pseudoElement". split.
    + apply (bool_decide_unpack _). vm_compute. exact I.
    + exists "::after". vm_compute. reflexivity.
  - split.
    + apply (Hlow (call_pseudoElement "after")). cbn. lia.
    + apply (Hhigh (call_pseudoElement "after")). cbn. lia.
Defined.

(** C2 as stated fails: on the instance built by
    [element('div').id('main')] the category [id], strictly after
    [element], holds a value, and the call [element('span')] throws the
    duplicate error, not the order error. *)
Lemma C2_counterexample :
  reachable (fst (build [call_element "div"; call_id "main"])) ∧
  "id" ∈ later "element" ∧
  fst (build [call_element "div"; call_id "main"]) !! "id" = Some "#main" ∧
  snd (invoke (call_element "span")
         (fst (build [call_element "div"; call_id "main"])))
  = Throw CSSPath.duplicateError ∧
  ¬ (snd (invoke (call_element "span")
            (fst (build [call_element "div"; call_id "main"])))
     = Throw CSSPath.orderError ↔
     ∃ f, f ∈ later "element" ∧
          is_Some (fst (build [call_element "div"; call_id "main"]) !! f)).
Proof.
  assert ("id" ∈ later "element") as Hin.
  { apply (bool_decide_unpack _). by vm_compute. }
  split_and!.
  - exists [call_element "div"; call_id "main"]. by vm_compute.
  - exact Hin.
  - by vm_compute.
  - by vm_compute.
  - intros [_ Hiff].
    assert (snd (invoke (call_element "span")
                   (fst (build [call_element "div"; call_id "main"])))
            = Throw CSSPath.orderError) as Habs.
    { apply Hiff. exists "id". split; [exact Hin|].
      exists "#main". by vm_compute. }
    vm_compute in Habs. discriminate Habs.
Qed.

(** C3 fails on the code for [element]: after [element('')] the stored
    string is empty, the duplicate check reads it as absent, and the second
    call [element('div')] returns normally and overwrites the value. *)
Theorem C3_element_twice_empty :
  snd (build [call_element ""; call_element "div"]) = Normal tt ∧
  fst (build [call_element ""; call_element "div"]) !! "element" = Some "div" ∧
  CSSPath.stringify (fst (build [call_element ""; call_element "div"])) = "div".
Proof. by vm_compute. Qed.

(** The part of C3 the code does satisfy: a second [id] or [pseudoElement]
    call after one that returned always throws the duplicate error, and so
    does a second [element] call after one that stored a non-empty value. *)
Lemma set_twice_duplicated (c c' : call) (this : CSSPath.t) :
  once c = true → field c' = field c →
  snd (invoke c this) = Normal tt →
  ((0 < rank c)%nat ∨ fragment c ≠ "") →
  snd (invoke c' (fst (invoke c this))) = Throw CSSPath.duplicateError.
Proof.
  intros Honce Hf Hn Hne. apply second_call_duplicated; [done..|].
  destruct Hne as [Hr|Hne]; [by apply fragment_nonempty|].
  by destruct (fragment c).
Qed.

(** C10. Presence of a category is read off the truthiness of its string:
    [element('')] returns a selector whose [stringify()] is the empty
    string and on which [element] can be called again, with any value,
    without an error, the new value replacing the old one. The fragments
    of the other five categories are never empty, so a call of one of them
    that returns leaves its category present, and a second [id] or
    [pseudoElement] call then throws the duplicate error whatever the
    values are. *)
Theorem C10_empty_element :
  (∃ this,
     cssSelectorBuilder.element "" = (this, Normal tt) ∧
     CSSPath.stringify this = "" ∧
     ∀ value,
       CSSPath.element value this = (<["element" := value]> this, Normal tt) ∧
       CSSPath.stringify (<["element" := value]> this) = value) ∧
  (∀ c, (0 < rank c)%nat → String.eqb (fragment c) "" = false) ∧
  (∀ c this, (0 < rank c)%nat → snd (invoke c this) = Normal tt →
     truthy (fst (invoke c this) !! field c) = true) ∧
  (∀ c c' this, (0 < rank c)%nat → once c = true → field c' = field c →
     snd (invoke c this) = Normal tt →
     snd (invoke c' (fst (invoke c this))) = Throw CSSPath.duplicateError).
Proof.
  split_and!.
  - exists (<["element" := ""]> ∅). split_and!; [done..|].
    intros value. split.
    + unfold CSSPath.element, method_bind, CSSPath.get, CSSPath.set.
      rewrite lookup_insert_eq. cbn [truthy method_ret].
      rewrite checkOrder_unfold.
      replace (some _ _) with false by (by vm_compute).
      by rewrite insert_insert_eq.
    + rewrite stringify_parts. unfold CSSPath.order, concat_strings.
      cbn [fmap list_fmap foldr]. rewrite !part_insert.
      repeat case_decide; try done.
      by rewrite !part_constructor, !app_empty_r.
  - apply fragment_nonempty.
  - intros c this Hr Hn. by apply accepted_truthy.
  - intros c c' this Hr Honce Hf Hn.
    apply second_call_duplicated; [done..|]. by apply fragment_nonempty.
Qed.

Lemma C10_witness :
  truthy (fst (invoke (call_id "") CSSPath.constructor) !! "id") = true ∧
  snd (invoke (call_id "x") (fst (invoke (call_id "") CSSPath.constructor)))
  = Throw CSSPath.duplicateError ∧
  snd (invoke (call_element "x")
         (fst (invoke (call_element "") CSSPath.constructor)))
  = Normal tt.
Proof.
  destruct C10_empty_element as (_ & _ & Hpresent & Htwice).
  split_and!.
  - apply (Hpresent (call_id "") CSSPath.constructor); [cbn; lia|reflexivity].
  - apply (Htwice (call_id "") (call_id "x") CSSPath.constructor);
      [cbn; lia|reflexivity..].
  - reflexivity.
Defined.

(** ** Properties of CSSCombinedPath *)

Lemma stringify_total (this : selector) :
  ∃ s, CSSCombinedPath.stringify this = Normal s.
Proof.
  induction this as [css|first [s1 IH1] combinator second [s2 IH2]].
  - by eexists.
  - cbn [CSSCombinedPath.stringify]. rewrite IH1, IH2. by eexists.
Qed.

(** C5. For a combined selector built from any two selectors and any
    combinator string, [stringify()] returns
    [left.stringify() + " " + combinator + " " + right.stringify()], one
    space on each side of the token whatever it is. So
    [combine(element('div').id('main'), '+', element('table').id('data'))]
    gives ["div#main + table#data"], and a nested [combine] with the
    combinator [' '] gives three spaces in a row. *)
Theorem C5_combined_stringify :
  (∀ left right combinator l r this,
     CSSCombinedPath.stringify left = Normal l →
     CSSCombinedPath.stringify right = Normal r →
     cssSelectorBuilder.combine left combinator right = Normal this →
     CSSCombinedPath.stringify this
     = Normal (l +:+ " " +:+ combinator +:+ " " +:+ r)) ∧
  CSSCombinedPath.stringify
    (CombinedPath (Path (fst (build [call_element "div"; call_id "main"])))
       "+" (Path (fst (build [call_element "table"; call_id "data"]))))
  = Normal "div#main + table#data" ∧
  CSSCombinedPath.stringify
    (CombinedPath
       (Path (fst (build [call_element "div"; call_id "main";
                          call_class "container"; call_class "draggable"])))
       "+"
       (CombinedPath
          (Path (fst (build [call_element "table"; call_id "data"])))
          "~"
          (CombinedPath
             (Path (fst (build [call_element "tr";
                                call_pseudoClass "nth-of-type(even)"])))
             " "
             (Path (fst (build [call_element "td";
                                call_pseudoClass "nth-of-type(even)"]))))))
  = Normal "div#main.container.draggable + table#data ~ tr:nth-of-type(even)   td:nth-of-type(even)".
Proof.
  split_and!.
  - intros left right combinator l r this Hl Hr [= <-].
    cbn [CSSCombinedPath.constructor CSSCombinedPath.stringify].
    by rewrite Hl, Hr.
  - by vm_compute.
  - by vm_compute.
Qed.

Lemma C5_witness :
  CSSCombinedPath.stringify
    (CombinedPath (Path (fst (cssSelectorBuilder.element "a"))) ">"
       (Path (fst (cssSelectorBuilder.class "b"))))
  = Normal "a > .b".
Proof.
  destruct C5_combined_stringify as (Hgen & _).
  apply (Hgen (Path (fst (cssSelectorBuilder.element "a")))
              (Path (fst (cssSelectorBuilder.class "b"))) ">" "a" ".b");
    reflexivity.
Defined.

(** C6. [combine] never throws and keeps the two selectors and the
    combinator token as they were given, whatever the token is, and
    [stringify()] never throws on any selector. *)
Theorem C6_combine_stringify_total :
  (∀ selector1 combinator selector2,
     cssSelectorBuilder.combine selector1 combinator selector2
     = Normal (CombinedPath selector1 combinator selector2)) ∧
  (∀ this : selector, ∃ s, CSSCombinedPath.stringify this = Normal s) ∧
  (∀ this : selector,
     is_Normal (CSSCombinedPath.stringify this) = true).
Proof.
  split_and!.
  - done.
  - apply stringify_total.
  - intros this. by destruct (stringify_total this) as [s ->].
Qed.

(** ** Properties of Rectangle *)

(** C7. [new Rectangle(w, h)] has [width = w] and [height = h]; [getArea()]
    returns the product of the two fields as they are when it is called,
    so after an assignment to [width] or [height] the next call returns
    the product of the current values. *)
Theorem C7_rectangle_area (w h : float) :
  (Rectangle w h).(width) = w ∧
  (Rectangle w h).(height) = h ∧
  getArea (Rectangle w h) = (w * h)%float ∧
  (∀ r w', getArea (set_width w' r) = (w' * r.(height))%float) ∧
  (∀ r h', getArea (set_height h' r) = (r.(width) * h')%float) ∧
  (∀ r, getArea r = (r.(width) * r.(height))%float) ∧
  getArea (Rectangle 10 20) = 200%float ∧
  getArea (set_width 3 (Rectangle 10 20)) = 60%float.
Proof. split_and!; done. Qed.

(** ** Properties of getJSON and fromJSON *)

Lemma object_chain_ind (P : object → Prop) :
  (∀ e props c, P (mkObject None e props c)) →
  (∀ o' e props c, P o' → P (mkObject (Some o') e props c)) →
  ∀ o, P o.
Proof.
  intros Hnull Hsome. fix IH 1. intros [[o'|] e props c].
  - apply Hsome, IH.
  - apply Hnull.
Qed.

Lemma OrdinarySet_writable (h : host) (o : object) (k : string) (v : value)
    (receiver : object) :
  writable_through (Some o) k →
  OrdinarySet h o k v receiver = Normal (set_on_receiver receiver k v).
Proof.
  unfold writable_through. induction o as [e props c|o' e props c IH]
    using object_chain_ind; cbn [find_property OrdinarySet];
    destruct (props !! k) as [[x w en|g s en]|]; try done.
  - by intros ->.
  - by intros ->.
Qed.

Lemma insert_within (props m : gmap string property) (k : string)
    (d : property) :
  props ⊆ m → m !! k = Some d →
  props ⊆ <[k := d]> props ∧ <[k := d]> props ⊆ m.
Proof.
  intros Hsub Hk. split.
  - apply map_subseteq_spec. intros i x Hi.
    destruct (decide (k = i)) as [->|Hne].
    + pose proof (lookup_weaken _ _ _ _ Hi Hsub) as Hx.
      rewrite Hk in Hx. injection Hx as Hx. subst x. apply lookup_insert_eq.
    + by rewrite lookup_insert_ne.
  - by apply insert_subseteq_l.
Qed.

Lemma OrdinarySet_target (h : host) (p : option object)
    (props : gmap string property) (source : object) (k : string) (v : value) :
  props ⊆ properties source → plain source → unobstructed p source →
  properties source !! k = Some (DataProperty v true true) →
  OrdinarySet h (mkObject p true props None) k v (mkObject p true props None)
  = Normal (true, mkObject p true (<[k := DataProperty v true true]> props) None).
Proof.
  intros Hsub Hplain Hfree Hk.
  assert (writable_through p k) as Hw by (apply Hfree; by rewrite Hk).
  cbn [OrdinarySet]. destruct (props !! k) as [d|] eqn:Hown.
  - pose proof (lookup_weaken _ _ _ _ Hown Hsub) as Hd.
    rewrite Hk in Hd. injection Hd as Hd. subst d.
    cbn [set_on_receiver]. by rewrite Hown.
  - destruct p as [o|].
    + rewrite OrdinarySet_writable by done.
      cbn [set_on_receiver]. by rewrite Hown.
    + cbn [set_on_receiver]. by rewrite Hown.
Qed.

Lemma assign_keys_plain (h : host) (p : option object) (source : object)
    (keys : list string) (props : gmap string property) :
  plain source → unobstructed p source → props ⊆ properties source →
  ∃ props',
    assign_keys h keys (mkObject p true props None) source
    = Normal (mkObject p true props' None, source) ∧
    props ⊆ props' ∧ props' ⊆ properties source ∧
    ∀ k, k ∈ keys → is_Some (properties source !! k) →
         props' !! k = properties source !! k.
Proof.
  intros Hplain Hfree. revert props.
  induction keys as [|k keys IH]; intros props Hsub.
  { exists props. split_and!; [done..|]. by intros k ?%elem_of_nil. }
  cbn [assign_keys]. destruct (properties source !! k) as [d|] eqn:Hk.
  - destruct (Hplain k d Hk) as [v ->].
    cbn [is_enumerable get_own completion_bind fst snd].
    rewrite (OrdinarySet_target h p props source k v) by done.
    cbn [completion_bind fst snd].
    destruct (insert_within props _ k _ Hsub Hk) as [Hin1 Hin2].
    destruct (IH (<[k := DataProperty v true true]> props) Hin2)
      as (props' & Hrun & Hle & Hsub' & Hall).
    exists props'. split_and!; [done|by etrans|done|].
    intros k' [->|Hin]%elem_of_cons Hsome; [|by apply Hall].
    rewrite Hk. apply (lookup_weaken _ _ _ _ (lookup_insert_eq _ _ _) Hle).
  - destruct (IH props Hsub) as (props' & Hrun & Hle & Hsub' & Hall).
    exists props'. split_and!; [done..|].
    intros k' [->|Hin]%elem_of_cons Hsome; [|by apply Hall].
    rewrite Hk in Hsome. by destruct Hsome.
Qed.

Lemma Object_assign_plain (h : host) (p : option object) (source : object) :
  plain source → enumerated h source → unobstructed p source →
  Object_assign h (mkObject p true ∅ None) (VObject source)
  = Normal (mkObject p true (properties source) None).
Proof.
  intros Hplain Henum Hfree. unfold Object_assign. cbn [ToObject].
  destruct (assign_keys_plain h p source (OwnPropertyKeys h source) ∅)
    as (props' & -> & _ & Hsub & Hall); [done|done|apply map_empty_subseteq|].
  cbn [completion_bind fst]. do 2 f_equal. apply map_eq. intros k.
  destruct (properties source !! k) as [d|] eqn:Hk.
  - rewrite <- Hk. apply Hall; [apply Henum|]; by rewrite Hk.
  - destruct (props' !! k) as [d|] eqn:Hown; [|done].
    pose proof (lookup_weaken _ _ _ _ Hown Hsub) as Hd. congruence.
Qed.




Lemma literal_plain (fields : list (string * value)) : plain (literal fields).
Proof.
  intros k d. cbn [literal properties].
  intros Hd%elem_of_list_to_map_2.
  apply list_elem_of_fmap in Hd as ([k' x] & [= -> ->] & _). by exists x.
Qed.

Lemma literal_keys (fields : list (string * value)) (k : string) :
  is_Some (properties (literal fields) !! k) → k ∈ fields.*1.
Proof.
  intros [d Hd]. cbn [literal properties] in Hd.
  apply elem_of_list_to_map_2, list_elem_of_fmap in Hd
    as ([k' x] & [= -> ->] & Hin).
  apply list_elem_of_fmap. by exists (k', x).
Qed.




(** ** How calls compose *)

Lemma not_overtaken_part (this : CSSPath.t) (c : call) (f : string) :
  overtaken this c = false → f ∈ later (field c) → part this f = "".
Proof.
  intros Ho Hf. apply falsy_part.
  destruct (truthy (this !! f)) eqn:Ht; [|done].
  assert (overtaken this c = true) as Habs; [|congruence].
  apply overtaken_true. by exists f.
Qed.

Lemma stringify_invoke (c : call) (this : CSSPath.t) :
  CSSPath.stringify (fst (invoke c this)) =
  CSSPath.stringify this +:+
  (if is_Normal (snd (invoke c this)) then fragment c else "").
Proof.
  rewrite !stringify_parts.
  destruct (snd (invoke c this)) as [[]|e] eqn:Hr; cbn [is_Normal].
  - apply invoke_Normal in Hr as Hok. destruct Hok as [_ Ho].
    pose proof (not_overtaken_part this c) as Hl. specialize (Hl "id") as H1.
    specialize (Hl "class") as H2. specialize (Hl "attribute") as H3.
    specialize (Hl "pseudoClass") as H4.
    specialize (Hl "pseudoElement") as H5.
    unfold CSSPath.order, concat_strings. cbn [fmap list_fmap foldr].
    rewrite !invoke_part, Hr. cbn [is_Normal andb].
    destruct c; cbn [field fragment] in *;
      repeat (rewrite bool_decide_eq_false_2 by done);
      rewrite bool_decide_eq_true_2 by done;
      repeat (rewrite bool_decide_eq_false_2 by done);
      rewrite ?H1, ?H2, ?H3, ?H4, ?H5
        by (try done; apply (bool_decide_unpack _); by vm_compute);
      by rewrite ?app_assoc_str, ?app_empty_r.
  - rewrite app_empty_r. f_equal. apply list_fmap_ext. intros _ f _.
    by rewrite invoke_part, Hr.
Qed.

(** X1. A call that returns appends its fragment at the end of the
    selector text, whatever the state of the instance: the order check has
    made sure nothing after its category is there. *)
Theorem returned_call_appends (c : call) (this : CSSPath.t) :
  snd (invoke c this) = Normal tt →
  CSSPath.stringify (fst (invoke c this)) =
  CSSPath.stringify this +:+ fragment c.
Proof. intros Hr. by rewrite stringify_invoke, Hr. Qed.

Lemma returned_call_appends_witness :
  CSSPath.stringify (fst (invoke (call_attr "href") (fst (cssSelectorBuilder.element "a"))))
  = "a[href]".
Proof.
  rewrite (returned_call_appends (call_attr "href")
             (fst (cssSelectorBuilder.element "a"))).
  - reflexivity.
  - reflexivity.
Defined.

Lemma after_stringify (calls : list call) (this : CSSPath.t) :
  CSSPath.stringify (after calls this) =
  CSSPath.stringify this +:+ concat_strings (fragment <$> accepted calls this).
Proof.
  revert this. induction calls as [|c calls IH]; intros this.
  - by rewrite app_empty_r.
  - cbn [after accepted]. rewrite IH, stringify_invoke.
    destruct (is_Normal (snd (invoke c this))); cbn [app].
    + rewrite fmap_cons. cbn [concat_strings foldr].
      by rewrite app_assoc_str.
    + by rewrite app_empty_r.
Qed.

(** X2. On an instance used for any sequence of calls, with the calls that
    throw caught and the instance kept, [stringify()] returns the
    fragments of the calls that returned, in call order: a rejected call
    leaves nothing in the text and no accepted fragment is moved. *)
Theorem session_stringify (calls : list call) :
  CSSPath.stringify (after calls CSSPath.constructor) =
  concat_strings (fragment <$> accepted calls CSSPath.constructor).
Proof. by rewrite after_stringify. Qed.

(** ** Which calls an instance accepts *)

Lemma overtaken_field (this : CSSPath.t) (c c' : call) :
  field c' = field c → overtaken this c' = overtaken this c.
Proof. unfold overtaken. by intros ->. Qed.

Lemma duplicated_field (this : CSSPath.t) (c c' : call) :
  field c' = field c → duplicated this c' = duplicated this c.
Proof. unfold duplicated. intros Hf. by rewrite (once_field _ _ Hf), Hf. Qed.

(** X3. The argument of a call is never looked at: on a given instance,
    two calls of the same category complete the same way, both returning
    or both throwing the same error. *)
Theorem completion_ignores_value (c c' : call) (this : CSSPath.t) :
  field c' = field c → snd (invoke c' this) = snd (invoke c this).
Proof.
  intros Hf. rewrite !invoke_completion.
  by rewrite (duplicated_field _ _ _ Hf), (overtaken_field _ _ _ Hf).
Qed.

Lemma completion_ignores_value_witness :
  snd (invoke (call_attr "") (fst (cssSelectorBuilder.pseudoClass "hover")))
  = snd (invoke (call_attr "]][[") (fst (cssSelectorBuilder.pseudoClass "hover"))).
Proof.
  apply (completion_ignores_value (call_attr "]][[") (call_attr "")).
  reflexivity.
Defined.

Lemma falsy_invoke_rejected (c0 : call) (this : CSSPath.t) :
  is_Normal (snd (invoke c0 this)) = false →
  truthy (this !! field c0) = false →
  truthy (fst (invoke c0 this) !! field c0) = false.
Proof.
  intros Hr Ht. rewrite truthy_part, invoke_part.
  destruct (is_Normal _); [done|]. cbn [andb]. by rewrite <- truthy_part.
Qed.

Lemma rejected_step (c0 c : call) (this : CSSPath.t) (e : Error) :
  snd (invoke c this) = Throw e →
  snd (invoke c (fst (invoke c0 this))) = Throw e.
Proof.
  rewrite !invoke_completion.
  destruct (duplicated this c) eqn:Hd.
  { intros <-. apply andb_true_iff in Hd as [Honce Ht].
    unfold duplicated. by rewrite Honce, (truthy_invoke_mono _ _ _ Ht). }
  destruct (overtaken this c) eqn:Ho; [|done]. intros <-.
  rewrite (overtaken_invoke_mono _ _ _ Ho).
  replace (duplicated (fst (invoke c0 this)) c) with false; [done|].
  symmetry. unfold duplicated in *.
  destruct (once c); [|done]. cbn [andb] in *.
  destruct (decide (field c = field c0)) as [Hf|Hne].
  - rewrite Hf. apply falsy_invoke_rejected; [|by rewrite <- Hf].
    rewrite invoke_completion, (overtaken_field this c c0), Ho by done.
    by destruct (duplicated this c0).
  - by rewrite invoke_lookup_ne.
Qed.

Lemma rejected_after (calls : list call) (c : call) (this : CSSPath.t)
    (e : Error) :
  snd (invoke c this) = Throw e →
  snd (invoke c (after calls this)) = Throw e.
Proof.
  revert this. induction calls as [|c0 calls IH]; intros this Hr; [done|].
  cbn [after]. by apply IH, rejected_step.
Qed.

(** X4. A rejection is permanent: once a call of some category has thrown
    on an instance, every call of that category made later on the
    instance, with any argument and after any other calls, throws the same
    error. *)
Theorem rejection_permanent (calls : list call) (c c' : call)
    (this : CSSPath.t) (e : Error) :
  field c' = field c →
  snd (invoke c this) = Throw e →
  snd (invoke c' (after calls this)) = Throw e.
Proof.
  intros Hf Hr. rewrite invoke_completion.
  rewrite (duplicated_field _ _ _ Hf), (overtaken_field _ _ _ Hf).
  rewrite <- invoke_completion. by apply rejected_after.
Qed.

Lemma rejection_permanent_witness :
  snd (invoke (call_id "late")
         (after [call_attr "x"; call_pseudoElement "after"; call_class "y"]
            (fst (cssSelectorBuilder.class "row"))))
  = Throw CSSPath.orderError.
Proof.
  apply (rejection_permanent _ (call_id "main") (call_id "late")).
  - reflexivity.
  - reflexivity.
Defined.

Lemma later_mono (c c' : call) (f : string) :
  (rank c ≤ rank c')%nat → f ∈ later (field c') → f ∈ later (field c).
Proof.
  intros Hle Hf. destruct c, c'; cbn [rank] in Hle; try lia;
    vm_compute in Hf; elem_cases Hf;
    apply (bool_decide_unpack _); by vm_compute.
Qed.

Lemma not_overtaken_falsy (this : CSSPath.t) (c : call) (f : string) :
  overtaken this c = false → f ∈ later (field c) →
  truthy (this !! f) = false.
Proof.
  intros Ho Hf. destruct (truthy (this !! f)) eqn:Ht; [|done].
  assert (overtaken this c = true) as Habs; [|congruence].
  apply overtaken_true. by exists f.
Qed.

Lemma not_overtaken_mono (this : CSSPath.t) (c c' : call) :
  (rank c ≤ rank c')%nat →
  overtaken this c = false → overtaken this c' = false.
Proof.
  intros Hle Ho. destruct (overtaken this c') eqn:Ho'; [|done].
  apply overtaken_true in Ho' as (f & Hf & Ht).
  by rewrite (not_overtaken_falsy this c f Ho (later_mono _ _ _ Hle Hf)) in Ht.
Qed.

(** X5. The categories an instance accepts form an upper part of the
    precedence order: where a call returns, a call of any strictly later
    category returns as well, on the instance as it was and on the
    instance as the first call leaves it. *)
Theorem later_category_accepted (c c' : call) (this : CSSPath.t) :
  snd (invoke c this) = Normal tt → (rank c < rank c')%nat →
  snd (invoke c' this) = Normal tt ∧
  snd (invoke c' (fst (invoke c this))) = Normal tt.
Proof.
  intros Hr Hlt. pose proof Hr as [Hd Ho]%invoke_Normal.
  assert (field c ≠ field c') as Hne.
  { intros Hf%rank_field. lia. }
  assert (duplicated this c' = false) as Hd'.
  { unfold duplicated.
    rewrite (not_overtaken_falsy this c (field c') Ho); [by destruct (once c')|].
    by apply elem_of_later. }
  assert (overtaken this c' = false) as Ho'.
  { apply (not_overtaken_mono this c c'); [lia|done]. }
  split; [by apply invoke_Normal|].
  rewrite invoke_state, Hd, Ho. apply invoke_Normal. split.
  - unfold duplicated in *. by rewrite lookup_insert_ne.
  - rewrite overtaken_insert; [done|lia].
Qed.

Lemma later_category_accepted_witness :
  snd (invoke (call_pseudoClass "hover")
         (fst (invoke (call_class "b") (fst (cssSelectorBuilder.id "a")))))
  = Normal tt.
Proof.
  apply (later_category_accepted (call_class "b") (call_pseudoClass "hover")
           (fst (cssSelectorBuilder.id "a"))).
  - reflexivity.
  - cbn. lia.
Defined.

Lemma repeat_step (c c' : call) (this : CSSPath.t) :
  once c = false → field c' = field c →
  snd (invoke c this) = Normal tt →
  snd (invoke c' (fst (invoke c this))) = Normal tt.
Proof.
  intros Honce Hf [Hd Ho]%invoke_Normal.
  rewrite invoke_state, Hd, Ho. apply invoke_Normal. split.
  - unfold duplicated. by rewrite (once_field _ _ Hf), Honce.
  - rewrite overtaken_insert, (overtaken_field _ _ _ Hf); [done|].
    by rewrite (rank_field _ _ Hf).
Qed.

(** X6. [class], [attr] and [pseudoClass] can be repeated: after one such
    call has returned, any number of further calls of the same category,
    chained on the result, return too, and the text grows by their
    fragments in call order. *)
Theorem repeatable_calls_chain (c : call) (calls : list call)
    (this : CSSPath.t) :
  once c = false →
  snd (invoke c this) = Normal tt →
  (∀ c', c' ∈ calls → field c' = field c) →
  ∃ this',
    chain calls (fst (invoke c this)) = (this', Normal tt) ∧
    CSSPath.stringify this' =
    CSSPath.stringify this +:+ fragment c +:+
    concat_strings (fragment <$> calls).
Proof.
  intros Honce. revert c this Honce.
  induction calls as [|c1 calls IH]; intros c this Honce Hr Hall.
  - eexists. split; [done|].
    rewrite (stringify_invoke c), Hr. unfold concat_strings.
    cbn [is_Normal fmap list_fmap foldr]. by rewrite app_empty_r.
  - assert (field c1 = field c) as Hf by (apply Hall; by left).
    pose proof (repeat_step c c1 this Honce Hf Hr) as Hr1.
    destruct (IH c1 (fst (invoke c this))) as (this' & Hchain & Hstr).
    + by rewrite (once_field _ _ Hf).
    + done.
    + intros c' Hc'. rewrite Hf. apply Hall. by right.
    + exists this'. split.
      * cbn [chain]. unfold method_bind.
        destruct (invoke c1 (fst (invoke c this))) as [this1 r] eqn:Hinv.
        cbn [snd fst] in *. by subst r.
      * rewrite Hstr, (stringify_invoke c), Hr. cbn [is_Normal].
        rewrite fmap_cons. cbn [concat_strings foldr].
        by rewrite !app_assoc_str.
Qed.

Lemma repeatable_calls_chain_witness :
  ∃ this',
    chain [call_class "b"; call_class "c"] (fst (invoke (call_class "a") CSSPath.constructor))
    = (this', Normal tt) ∧
    CSSPath.stringify this' = ".a.b.c".
Proof.
  destruct (repeatable_calls_chain (call_class "a")
              [call_class "b"; call_class "c"] CSSPath.constructor)
    as (this' & Hchain & Hstr).
  - reflexivity.
  - reflexivity.
  - intros c' Hc'.
    apply elem_of_cons in Hc' as [->|Hc']; [reflexivity|].
    apply elem_of_cons in Hc' as [->|Hc']; [reflexivity|].
    by apply elem_of_nil in Hc'.
  - exists this'. split; [exact Hchain|]. rewrite Hstr. reflexivity.
Defined.

(** ** Guarded categories *)

Lemma occupies_truthy (c : call) (this : CSSPath.t) :
  occupies (field c) c → snd (invoke c this) = Normal tt →
  truthy (fst (invoke c this) !! field c) = true.
Proof.
  intros [_ Hne] Hr. rewrite truthy_part, invoke_part, Hr.
  cbn [is_Normal andb]. rewrite bool_decide_eq_true_2 by done.
  rewrite eqb_empty_app. apply negb_true_iff, andb_false_iff. right.
  by apply String.eqb_neq.
Qed.

Lemma accepted_occupies (calls : list call) (c0 : call) (this : CSSPath.t) :
  once c0 = true →
  (length (filter (occupies (field c0)) (accepted calls this))
   ≤ if truthy (this !! field c0) then 0 else 1)%nat.
Proof.
  intros Honce. revert this.
  induction calls as [|c calls IH]; intros this.
  { cbn. destruct (truthy _); lia. }
  cbn [accepted]. specialize (IH (fst (invoke c this))).
  pose proof (truthy_invoke_mono c this (field c0)) as Hmono.
  destruct (snd (invoke c this)) as [[]|e] eqn:Hr; cbn [is_Normal app].
  - rewrite filter_cons. case_decide as Hocc.
    + destruct Hocc as [Hf Hne].
      pose proof Hr as [Hd _]%invoke_Normal.
      unfold duplicated in Hd.
      rewrite (once_field _ _ Hf), Honce, Hf in Hd. cbn [andb] in Hd.
      rewrite Hd. rewrite <- Hf in IH.
      rewrite (occupies_truthy c this) in IH; [|by split|done].
      rewrite <- Hf. cbn [length]. lia.
    + destruct (truthy (this !! field c0)).
      * by rewrite Hmono in IH.
      * destruct (truthy (_ !! _)) in IH; lia.
  - destruct (truthy (this !! field c0)).
    + by rewrite Hmono in IH.
    + destruct (truthy (_ !! _)) in IH; lia.
Qed.

(** X7. Invariant I1: whatever calls are made on an instance, at most one
    [id] call and at most one [pseudoElement] call ever return, and at most
    one [element] call with a non-empty value does. *)
Theorem guarded_at_most_once (calls : list call) (c0 : call) :
  once c0 = true →
  (length (filter (occupies (field c0))
             (accepted calls CSSPath.constructor)) ≤ 1)%nat.
Proof.
  intros Honce.
  pose proof (accepted_occupies calls c0 CSSPath.constructor Honce) as H.
  destruct (truthy _) in H; lia.
Qed.

Lemma guarded_at_most_once_witness :
  (length (filter (occupies "id")
             (accepted [call_id "a"; call_class "b"; call_id "c"; call_id ""]
                CSSPath.constructor)) ≤ 1)%nat.
Proof.
  apply (guarded_at_most_once
           [call_id "a"; call_class "b"; call_id "c"; call_id ""]
           (call_id "")).
  reflexivity.
Defined.

(** X8. The only errors a call throws are the two of the class.
    [class], [attr] and [pseudoClass] never throw the duplicate error, and
    [pseudoElement], the last category, never throws the order error. *)
Theorem errors_by_category (c : call) (this : CSSPath.t) :
  (snd (invoke c this) = Normal tt ∨
   snd (invoke c this) = Throw CSSPath.duplicateError ∨
   snd (invoke c this) = Throw CSSPath.orderError) ∧
  (once c = false → snd (invoke c this) ≠ Throw CSSPath.duplicateError) ∧
  (field c = "pseudoElement" →
   snd (invoke c this) ≠ Throw CSSPath.orderError).
Proof.
  rewrite invoke_completion. split_and!.
  - destruct (duplicated this c), (overtaken this c); auto.
  - intros Honce. unfold duplicated. rewrite Honce. cbn [andb].
    by destruct (overtaken this c).
  - intros Hf. unfold overtaken. rewrite Hf.
    replace (later "pseudoElement") with (@nil string) by (by vm_compute).
    cbn [some existsb]. by destruct (duplicated this c).
Qed.

Lemma errors_by_category_witness :
  snd (invoke (call_class "x") (fst (cssSelectorBuilder.class "x")))
  ≠ Throw CSSPath.duplicateError ∧
  snd (invoke (call_pseudoElement "x") (fst (cssSelectorBuilder.id "x")))
  ≠ Throw CSSPath.orderError.
Proof.
  split.
  - apply (errors_by_category (call_class "x")). reflexivity.
  - apply (errors_by_category (call_pseudoElement "x")). reflexivity.
Defined.

(** X9. The six entry points of the facade never throw, and the selector
    each one returns stringifies to the fragment of its argument. *)
Theorem facade_returns (c : call) :
  snd (facade c) = Normal tt ∧
  CSSPath.stringify (fst (facade c)) = fragment c.
Proof.
  rewrite facade_invoke.
  assert (snd (invoke c CSSPath.constructor) = Normal tt) as Hr.
  { apply invoke_Normal. destruct c; by vm_compute. }
  split; [done|]. by rewrite stringify_invoke, Hr.
Qed.

(** ** The empty selector and the order check *)

Lemma some_truthy_stringify (this : CSSPath.t) :
  some (λ f, truthy (this !! f)) CSSPath.order =
  negb (String.eqb (CSSPath.stringify this) "").
Proof.
  rewrite stringify_parts. unfold CSSPath.order, concat_strings, some.
  cbn [fmap list_fmap foldr existsb].
  rewrite !eqb_empty_app, !truthy_part.
  repeat match goal with
         | |- context [String.eqb (part this ?f) ""] =>
           destruct (String.eqb (part this f) "")
         end; done.
Qed.

(** X10. [stringify()] returns the empty string exactly when none of the
    six categories holds a non-empty string: properties that are missing
    or hold an empty accumulator add nothing. *)
Theorem stringify_empty (this : CSSPath.t) :
  CSSPath.stringify this = "" ↔
  ∀ f, f ∈ CSSPath.order → truthy (this !! f) = false.
Proof.
  rewrite <- String.eqb_eq.
  pose proof (some_truthy_stringify this) as Hs. split.
  - intros Heq f Hf. rewrite Heq in Hs. cbn [negb] in Hs.
    destruct (truthy (this !! f)) eqn:Ht; [|done].
    assert (some (λ g, truthy (this !! g)) CSSPath.order = true) as Habs;
      [|congruence].
    unfold some. apply existsb_exists. exists f.
    split; [by apply list_elem_of_In|done].
  - intros Hall. apply negb_false_iff. rewrite <- Hs.
    destruct (some _ _) eqn:Hsome; [|done]. unfold some in Hsome.
    apply existsb_exists in Hsome as (f & Hf%list_elem_of_In & Ht).
    by rewrite (Hall f Hf) in Ht.
Qed.

Lemma stringify_empty_witness :
  CSSPath.stringify (fst (invoke (call_class "x") (<["attribute" := "[y]"]> ∅)))
  ≠ "" ∧
  CSSPath.stringify (<["class" := ""]> ∅) = "".
Proof.
  split.
  - intros Heq.
    pose proof (proj1 (stringify_empty _) Heq "attribute") as Ht.
    assert ("attribute" ∈ CSSPath.order) as Hin.
    { apply (bool_decide_unpack _). vm_compute. exact I. }
    specialize (Ht Hin). vm_compute in Ht. discriminate Ht.
  - apply (stringify_empty (<["class" := ""]> ∅)).
    intros f Hf. unfold CSSPath.order in Hf.
    elem_cases Hf; reflexivity.
Defined.

Lemma indexOf_notin (x : string) (l : list string) :
  x ∉ l → indexOf x l = (-1)%Z.
Proof.
  induction l as [|y l IH]; [done|].
  intros [Hne Hl]%not_elem_of_cons. cbn [indexOf].
  rewrite (proj2 (String.eqb_neq y x)) by done.
  by rewrite IH.
Qed.

(** X11. [checkOrder] called with a name that is not one of the six
    categories finds no index, so it inspects all six: it throws the
    order error exactly when the selector text is not empty, and it leaves
    the instance as it was. *)
Theorem checkOrder_unknown_field (f : string) (this : CSSPath.t) :
  f ∉ CSSPath.order →
  CSSPath.checkOrder f this =
  (this, if String.eqb (CSSPath.stringify this) ""
         then Normal tt else Throw CSSPath.orderError).
Proof.
  intros Hf. rewrite checkOrder_unfold. unfold later.
  rewrite (indexOf_notin _ _ Hf).
  change (slice (-1 + 1) CSSPath.order) with CSSPath.order.
  rewrite some_truthy_stringify. by destruct (String.eqb _ _).
Qed.

Lemma checkOrder_unknown_field_witness :
  CSSPath.checkOrder "elem" (fst (cssSelectorBuilder.element "div"))
  = (fst (cssSelectorBuilder.element "div"), Throw CSSPath.orderError) ∧
  CSSPath.checkOrder "elem" CSSPath.constructor
  = (CSSPath.constructor, Normal tt).
Proof.
  split.
  - rewrite (checkOrder_unknown_field "elem").
    + reflexivity.
    + apply (bool_decide_unpack _). vm_compute. exact I.
  - rewrite (checkOrder_unknown_field "elem").
    + reflexivity.
    + apply (bool_decide_unpack _). vm_compute. exact I.
Defined.

(** ** Combined selectors as token sequences *)

Lemma tokens_nonempty (this : selector) : tokens this ≠ [].
Proof.
  destruct this as [css|a c b]; cbn [tokens]; [done|].
  by destruct (tokens a).
Qed.

Lemma joined_cons (sep s : string) (l : list string) :
  l ≠ [] → joined sep (s :: l) = s +:+ sep +:+ joined sep l.
Proof. by destruct l. Qed.

Lemma joined_app (sep : string) (l1 l2 : list string) :
  l1 ≠ [] → l2 ≠ [] →
  joined sep (l1 ++ l2) = joined sep l1 +:+ sep +:+ joined sep l2.
Proof.
  intros H1 H2. induction l1 as [|s l1 IH]; [done|].
  destruct l1 as [|s' l1].
  - change ([s] ++ l2)%list with (s :: l2). by rewrite joined_cons.
  - change ((s :: s' :: l1) ++ l2)%list with (s :: ((s' :: l1) ++ l2)%list).
    rewrite !joined_cons, IH by done.
    by rewrite !app_assoc_str.
Qed.

(** X12. [stringify()] of any selector is its tokens, the texts of the
    simple selectors and the combinators from left to right, with exactly
    one space between neighbours; how the [combine] calls were nested
    leaves no other mark. *)
Theorem stringify_joined_tokens (this : selector) :
  CSSCombinedPath.stringify this = Normal (joined " " (tokens this)).
Proof.
  induction this as [css|a IHa c b IHb]; [done|].
  cbn [CSSCombinedPath.stringify tokens]. rewrite IHa, IHb.
  cbn [completion_bind]. f_equal.
  rewrite joined_app, joined_cons; [done|apply tokens_nonempty..|done].
Qed.

(** X13. Nesting to the left or to the right gives the same text:
    [combine(combine(a, c1, b), c2, d)] and [combine(a, c1, combine(b, c2,
    d))] stringify alike. *)
Theorem combine_reassociates (a b d : selector) (c1 c2 : string) :
  CSSCombinedPath.stringify (CombinedPath (CombinedPath a c1 b) c2 d) =
  CSSCombinedPath.stringify (CombinedPath a c1 (CombinedPath b c2 d)).
Proof.
  cbn [CSSCombinedPath.stringify].
  destruct (stringify_total a) as [sa ->], (stringify_total b) as [sb ->],
    (stringify_total d) as [sd ->].
  cbn [completion_bind]. by rewrite !app_assoc_str.
Qed.

Lemma length_app_str (s1 s2 : string) :
  String.length (s1 +:+ s2) = (String.length s1 + String.length s2)%nat.
Proof.
  induction s1 as [|a s1 IH]; [done|].
  change (S (String.length (s1 +:+ s2))
          = S (String.length s1 + String.length s2)%nat).
  by rewrite IH.
Qed.

(** X14. A combined selector never stringifies to the empty string: its
    text holds the combinator and the two spaces around it, also when both
    sides are empty selectors. *)
Theorem combined_text_length (a b : selector) (c s : string) :
  CSSCombinedPath.stringify (CombinedPath a c b) = Normal s →
  (String.length c + 2 ≤ String.length s)%nat ∧ s ≠ "".
Proof.
  cbn [CSSCombinedPath.stringify].
  destruct (stringify_total a) as [sa ->], (stringify_total b) as [sb ->].
  cbn [completion_bind]. intros [= <-].
  rewrite !length_app_str.
  change (String.length " ") with 1%nat. split; [lia|].
  intros Heq%(f_equal String.length). rewrite !length_app_str in Heq.
  change (String.length " ") with 1%nat in Heq. cbn in Heq. lia.
Qed.

Lemma combined_text_length_witness :
  (String.length "" + 2 ≤ String.length "  ")%nat ∧ "  " ≠ "".
Proof.
  apply (combined_text_length (Path CSSPath.constructor)
           (Path CSSPath.constructor) "" "  ").
  reflexivity.
Defined.

(** ** fromJSON on any text *)

Lemma assign_keys_empty (h : host) (keys : list string) (to from : object) :
  properties from = ∅ → assign_keys h keys to from = Normal (to, from).
Proof.
  intros Hempty. induction keys as [|k keys IH]; [done|].
  cbn [assign_keys]. by rewrite Hempty, lookup_empty.
Qed.

Lemma Object_create_as_prototype (h : host) (proto : value) :
  Object_create h proto =
  match as_prototype proto with
  | Some p => Normal (mkObject p true ∅ None)
  | None => Throw (TypeError_create h proto)
  end.
Proof. by destruct proto. Qed.

(** X15. What [fromJSON] does on any text. With a blueprint that is neither
    an object nor [null] it throws the [TypeError] of [Object.create],
    whatever the text is. Otherwise it throws exactly the error
    [JSON.parse] throws on the text; when the text parses to [null], a
    boolean or a number, the result is an object with the given prototype
    and no own property; and with the prototype [null], when the text
    parses to a plain object, the result has exactly the parsed properties
    as own properties. *)
Theorem fromJSON_outcome (h : host) (proto : value) (text : string) :
  (as_prototype proto = None →
   fromJSON h proto text = Throw (TypeError_create h proto)) ∧
  (∀ p e, as_prototype proto = Some p → JSON_parse h text = Throw e →
     fromJSON h proto text = Throw e) ∧
  (∀ p x, as_prototype proto = Some p → JSON_parse h text = Normal x →
     fieldless x = true →
     fromJSON h proto text = Normal (mkObject p true ∅ None)) ∧
  (∀ parsed, proto = VNull → JSON_parse h text = Normal (VObject parsed) →
     plain parsed → enumerated h parsed →
     fromJSON h proto text = Normal (mkObject None true (properties parsed) None)).
Proof.
  unfold fromJSON. rewrite Object_create_as_prototype. split_and!.
  - by intros ->.
  - by intros p e -> ->.
  - intros p x -> -> Hx. cbn [completion_bind]. unfold Object_assign.
    destruct x; try done; cbn [ToObject]; by rewrite assign_keys_empty.
  - intros parsed -> Hparse Hplain Henum. cbn [as_prototype].
    rewrite Hparse. cbn [completion_bind].
    by apply Object_assign_plain.
Qed.

Lemma fromJSON_outcome_witness :
  fromJSON (observed circle_text circle_fields ["radius"]) (VNumber 5)
    circle_text
  = Throw (mkError "TypeError") ∧
  fromJSON (observed circle_text circle_fields ["radius"]) VNull circle_text
  = Normal (mkObject None true
              {[ "radius" := DataProperty (VNumber 10) true true ]} None).
Proof.
  destruct (fromJSON_outcome (observed circle_text circle_fields ["radius"])
              (VNumber 5) circle_text) as (Hbad & _).
  destruct (fromJSON_outcome (observed circle_text circle_fields ["radius"])
              VNull circle_text) as (_ & _ & _ & Hnull).
  split.
  - apply Hbad. reflexivity.
  - rewrite (Hnull circle_fields).
    + reflexivity.
    + reflexivity.
    + reflexivity.
    + apply literal_plain.
    + intros k Hk. apply (literal_keys [("radius", VNumber 10)] k Hk).
Defined.

(** ** Chains that return *)

Lemma chain_accepted (calls : list call) (this this' : CSSPath.t) :
  chain calls this = (this', Normal tt) →
  accepted calls this = calls ∧ after calls this = this'.
Proof.
  revert this. induction calls as [|c calls IH]; intros this.
  - by intros [= <-].
  - cbn [chain accepted after]. unfold method_bind.
    destruct (invoke c this) as [this1 [[]|e]] eqn:Hinv; [|done].
    cbn [fst snd is_Normal]. intros [-> ->]%IH. done.
Qed.

(** X16. A chained expression that returns was well formed: its calls are
    in non-decreasing precedence order, and each of [element], [id] and
    [pseudoElement] stores a non-empty string in it at most once. A chain
    that breaks either rule throws. *)
Theorem returned_chain_well_formed (calls : list call) (this : CSSPath.t) :
  build calls = (this, Normal tt) →
  ordered calls ∧
  ∀ c0, once c0 = true →
    (length (filter (occupies (field c0)) calls) ≤ 1)%nat.
Proof.
  rewrite build_chain. intros [Hacc _]%chain_accepted. split.
  - unfold ordered. apply StronglySorted_Sorted.
    rewrite <- Hacc. apply accepted_sorted.
  - intros c0 Honce.
    pose proof (accepted_occupies calls c0 CSSPath.constructor Honce) as H.
    rewrite Hacc in H. destruct (truthy _) in H; lia.
Qed.

Lemma returned_chain_well_formed_witness :
  ordered [call_element "a"; call_attr "href"; call_pseudoClass "focus"].
Proof.
  apply (returned_chain_well_formed
           [call_element "a"; call_attr "href"; call_pseudoClass "focus"]
           (fst (build [call_element "a"; call_attr "href";
                        call_pseudoClass "focus"]))).
  reflexivity.
Defined.

Lemma after_part (calls : list call) (this : CSSPath.t) (f : string) :
  part (after calls this) f =
  part this f +:+ fragments f (accepted calls this).
Proof.
  revert this. induction calls as [|c calls IH]; intros this.
  - by rewrite app_empty_r.
  - cbn [after accepted]. rewrite IH, invoke_part.
    destruct (is_Normal (snd (invoke c this))); cbn [andb app].
    + rewrite fragments_cons. case_bool_decide; [|done].
      by rewrite app_assoc_str.
    + done.
Qed.

(** X17. What an instance stores for a category is the fragments of the
    calls of that category that returned, in call order, and nothing
    else: a property that is set is never reset or shortened, a rejected
    call adds at most an empty accumulator, and the text ["undefined"] of
    a missing property is never appended to. *)
Theorem stored_fragments (calls : list call) (f : string) :
  default "" (after calls CSSPath.constructor !! f) =
  fragments f (accepted calls CSSPath.constructor).
Proof.
  pose proof (after_part calls CSSPath.constructor f) as H.
  by rewrite part_constructor in H.
Qed.
